(** * listener-radio: a shallow embedding of the message store, the decoder
    fan-in, the payload validation and the scheduler loop.

    The store is the [messages] table: a list of rows with their database
    ids.  The SQL statements of [src/db/resolver.rs] are embedded with the
    PostgreSQL semantics they rely on: [message->>'f'] yields NULL or a text,
    the cast [::bigint] of a text that is not a 64-bit integer raises an error
    that aborts the whole statement, comparisons with NULL are unknown and a
    WHERE clause keeps only the rows where it is true, [LIMIT] rejects a
    negative count. *)

From Stdlib Require Import List ZArith String Bool Lia Permutation Sorted.
Import ListNotations.
Open Scope Z_scope.

(* ------------------------------------------------------------------ *)
(** ** Machine integers *)

Definition i64_min : Z := - 2 ^ 63.
Definition i64_max : Z := 2 ^ 63 - 1.

Definition in_i64 (z : Z) : bool := (i64_min <=? z) && (z <=? i64_max).

(** [x as i64] for an unsigned 64-bit [x] (Rust's wrapping cast). *)
Definition u64_as_i64 (x : Z) : Z :=
  if x <=? i64_max then x else x - 2 ^ 64.

(* ------------------------------------------------------------------ *)
(** ** Errors and results *)

Inductive db_error :=
| LimitNegative        (* LIMIT must not be negative *)
| InvalidBigint        (* invalid input syntax / out of range for type bigint *)
| SyntaxError          (* the statement does not parse *)
| ColumnDecode         (* NULL decoded into a non-optional Rust field *)
| Panic                (* a Rust panic (unwrap, expect, Row::get) *)
| Unsupported.         (* "Unsupported message types" *)

Inductive result (A : Type) :=
| Ok (a : A)
| Err (e : db_error).
Arguments Ok {A} a.
Arguments Err {A} e.

Definition bind {A B} (m : result A) (k : A -> result B) : result B :=
  match m with Ok a => k a | Err e => Err e end.

Notation "x <- m ;; k" := (bind m (fun x => k))
  (at level 61, m at next level, right associativity).

(* ------------------------------------------------------------------ *)
(** ** Payloads and envelopes ([src/message_types.rs], graphcast_sdk) *)

Record PublicPoiMessage := {
  poi_identifier : string;
  poi_content : string;
  poi_nonce : Z;            (* u64 *)
  poi_network : string;
  poi_block_number : Z;     (* u64 *)
  poi_block_hash : string;
  poi_graph_account : string;
}.

Record SimpleMessage := {
  sm_identifier : string;
  sm_content : string;
}.

Record UpgradeIntentMessage := {
  ui_deployment : string;
  ui_subgraph_id : string;
  ui_new_hash : string;
  ui_nonce : Z;             (* u64 *)
  ui_graph_account : string;
}.

(** The outer envelope [GraphcastMessage<T>] of graphcast_sdk. *)
Record GraphcastMessage (T : Type) := {
  gm_identifier : string;
  gm_payload : T;
  gm_nonce : Z;             (* u64 *)
  gm_graph_account : string;
  gm_signature : string;
}.
Arguments gm_identifier {T} g.
Arguments gm_payload {T} g.
Arguments gm_nonce {T} g.
Arguments gm_graph_account {T} g.
Arguments gm_signature {T} g.

(* ------------------------------------------------------------------ *)
(** ** Rows of the [messages] table *)

(** The value of [message->>'nonce']: NULL when the field is missing or
    JSON null, otherwise its text, given by the integer it spells when it is
    a decimal integer literal ([NText (Some z)]) and [NText None] else. *)
Inductive nonce_text :=
| NNull
| NText (lit : option Z).

(** The JSON payload stored with the envelope. *)
Inductive json_payload :=
| JPoi (p : PublicPoiMessage)
| JUpgrade (p : UpgradeIntentMessage)
| JSimple (p : SimpleMessage)
| JOther.

(** The JSON document in column [message], by the fields the queries read. *)
Record Message := {
  m_nonce : nonce_text;
  m_graph_account : option string;   (* message->>'graph_account' *)
  m_identifier : option string;      (* message->>'identifier' *)
  m_payload : json_payload;
}.

Record Row := {
  id : Z;
  message : Message;
}.

(** [(message->>'nonce')::bigint] *)
Definition cast_bigint (t : nonce_text) : result (option Z) :=
  match t with
  | NNull => Ok None
  | NText (Some z) => if in_i64 z then Ok (Some z) else Err InvalidBigint
  | NText None => Err InvalidBigint
  end.

Definition row_nonce (r : Row) : result (option Z) :=
  cast_bigint (m_nonce (message r)).

(** SQL three-valued comparisons; WHERE keeps a row only on [Some true]. *)
Definition sql_lt (a : option Z) (b : Z) : option bool :=
  option_map (fun x => x <? b) a.
Definition sql_gt (a : option Z) (b : Z) : option bool :=
  option_map (fun x => b <? x) a.

Definition is_true3 (v : option bool) : bool :=
  match v with Some true => true | _ => false end.

(** A WHERE clause evaluated on every row of a scan; an error raised on
    any row aborts the statement. *)
Fixpoint where_all (p : Row -> result bool) (rs : list Row) : result (list Row) :=
  match rs with
  | [] => Ok []
  | r :: rs' =>
      b <- p r ;;
      tl <- where_all p rs' ;;
      Ok (if b then r :: tl else tl)
  end.

(** ORDER BY id ASC / DESC *)
Fixpoint insert_by (le : Z -> Z -> bool) (r : Row) (rs : list Row) : list Row :=
  match rs with
  | [] => [r]
  | r' :: rs' => if le (id r) (id r') then r :: rs else r' :: insert_by le r rs'
  end.

Fixpoint sort_by (le : Z -> Z -> bool) (rs : list Row) : list Row :=
  match rs with
  | [] => []
  | r :: rs' => insert_by le r (sort_by le rs')
  end.

Definition order_by_id_asc := sort_by Z.leb.
Definition order_by_id_desc := sort_by (fun a b => b <=? a).

Definition mem_id (x : Z) (ids : list Z) : bool := existsb (Z.eqb x) ids.

(* ------------------------------------------------------------------ *)
(** ** [prune_old_messages] *)

(** One execution of the batched delete statement
    [WITH deleted AS (SELECT id FROM messages WHERE (message->>'nonce')::bigint < $1
                      ORDER BY id ASC LIMIT $2 FOR UPDATE SKIP LOCKED)
     DELETE FROM messages WHERE id IN (SELECT id FROM deleted) RETURNING id]
    with no concurrent lock holder.  Returns the new table and
    [rows_affected].  The Limit node checks its count before reading any
    row: a negative count is an error, and a count of 0 returns no row
    without running the scan below it, so no nonce is cast. *)
Definition prune_batch (rs : list Row) (cutoff batch_size : Z)
  : result (list Row * Z) :=
  if batch_size <? 0 then Err LimitNegative else
  if batch_size =? 0 then Ok (rs, 0) else
  sel <- where_all (fun r => n <- row_nonce r ;; Ok (is_true3 (sql_lt n cutoff)))
                   (order_by_id_asc rs) ;;
  let ids := map id (firstn (Z.to_nat batch_size) sel) in
  let rs' := filter (fun r => negb (mem_id (id r) ids)) rs in
  Ok (rs', Z.of_nat (List.length rs - List.length rs')).

(** The [loop] of [prune_old_messages], run with [fuel] iterations at most
    ([None] when the fuel runs out).  The table is returned together with
    the function's result: batches already executed stay committed. *)
Fixpoint prune_loop (fuel : nat) (rs : list Row) (cutoff batch_size total : Z)
  : option (list Row * result Z) :=
  match fuel with
  | O => None
  | S fuel' =>
      match prune_batch rs cutoff batch_size with
      | Err e => Some (rs, Err e)
      | Ok (rs', deleted_count) =>
          let total' := total + deleted_count in
          if deleted_count <? batch_size then Some (rs', Ok total')
          else prune_loop fuel' rs' cutoff batch_size total'
      end
  end.

(** [now] is [Utc::now().timestamp()]; [retention] an [i32]. *)
Definition prune_old_messages (fuel : nat) (now : Z) (rs : list Row)
  (retention batch_size : Z) : option (list Row * result Z) :=
  let cutoff_nonce := now - retention * 60 in
  prune_loop fuel rs cutoff_nonce batch_size 0.

(** Rows the batched delete selects for a given cutoff. *)
Definition eligible (cutoff : Z) (r : Row) : bool :=
  match row_nonce r with
  | Ok n => is_true3 (sql_lt n cutoff)
  | Err _ => false
  end.

(** The cast of the row's nonce does not raise (the nonce is NULL or a
    64-bit integer): the store invariant of spec section 3. *)
Definition nonce_castable (r : Row) : Prop := exists v, row_nonce r = Ok v.

(** [id] is the primary key of [messages]. *)
Definition ids_unique (rs : list Row) : Prop := NoDup (map id rs).

(* ------------------------------------------------------------------ *)
(** ** [retain_max_storage] *)

(** [max_storage] is a [usize] (0 <= max_storage < 2^64), bound as
    [max_storage as i64].  The first statement is
    [SELECT id FROM messages ORDER BY id DESC LIMIT $1], the second
    [DELETE FROM messages WHERE id NOT IN (SELECT unnest($1::int8[])) RETURNING id]. *)
Definition retain_max_storage (rs : list Row) (max_storage : Z) : list Row * result Z :=
  let limit := u64_as_i64 max_storage in
  if limit <? 0 then (rs, Err LimitNegative) else
  let top_ids := map id (firstn (Z.to_nat limit) (order_by_id_desc rs)) in
  let deleted_ids := map id (filter (fun r => negb (mem_id (id r) top_ids)) rs) in
  let rs' := filter (fun r => mem_id (id r) top_ids) rs in
  (rs', Ok (Z.of_nat (List.length deleted_ids))).

(* ------------------------------------------------------------------ *)
(** ** [list_active_indexers] and [get_indexer_stats] *)

Inductive sql_value :=
| VInt (z : Z)
| VText (s : string).

(** The placeholders [format!("${}", i + 2)] of the allow-list, by number. *)
Definition placeholders (idxs : list string) : list nat :=
  map (fun i => (i + 2)%nat) (seq 0 (List.length idxs)).

(** The optional clause [AND (message->>'graph_account') IN (<placeholders>)]
    appended to the query text: [None] when no allow-list is given. *)
Definition in_clause (indexers : option (list string)) : option (list nat) :=
  match indexers with
  | None => None
  | Some idxs => Some (placeholders idxs)
  end.

(** PostgreSQL's grammar: [in_expr] is ['(' expr_list ')'] and an
    [expr_list] has at least one expression, so [IN ()] does not parse. *)
Definition sql_parses (clause : option (list nat)) : bool :=
  match clause with
  | Some [] => false
  | _ => true
  end.

(** The parameters bound: [$1] is [from_timestamp], then the accounts. *)
Definition bind_params (from_timestamp : Z) (indexers : option (list string))
  : list sql_value :=
  VInt from_timestamp ::
  match indexers with None => [] | Some idxs => map VText idxs end.

(** [a IN ($k, ...)] with [a] possibly NULL. *)
Definition sql_in (a : option string) (params : list sql_value) (ph : list nat)
  : option bool :=
  match a with
  | None => None
  | Some s =>
      Some (existsb (fun k => match nth_error params (k - 1) with
                              | Some (VText t) => String.eqb s t
                              | _ => false
                              end) ph)
  end.

(** [WHERE (CAST(message->>'nonce' AS BIGINT)) > $1 [AND ... IN (...)]],
    the conjuncts evaluated left to right. *)
Definition active_where (from_timestamp : Z) (params : list sql_value)
  (clause : option (list nat)) (r : Row) : result bool :=
  n <- row_nonce r ;;
  Ok (is_true3 (sql_gt n from_timestamp) &&
      match clause with
      | None => true
      | Some ph => is_true3 (sql_in (m_graph_account (message r)) params ph)
      end).

Definition opt_str_eqb (a b : option string) : bool :=
  match a, b with
  | None, None => true
  | Some x, Some y => String.eqb x y
  | _, _ => false
  end.

(** SELECT DISTINCT / GROUP BY keys, NULLs equal to each other. *)
Fixpoint distinct {A} (eqb : A -> A -> bool) (l : list A) : list A :=
  match l with
  | [] => []
  | x :: l' => if existsb (eqb x) l' then distinct eqb l' else x :: distinct eqb l'
  end.

(** [row.get::<String, _>("graph_account")] for each row: panics on NULL. *)
Fixpoint get_strings (l : list (option string)) : result (list string) :=
  match l with
  | [] => Ok []
  | None :: _ => Err Panic
  | Some s :: l' => tl <- get_strings l' ;; Ok (s :: tl)
  end.

Definition account_of (r : Row) : option string := m_graph_account (message r).

(** Neither query has an ORDER BY: the order of the keys below, first
    occurrence order of [distinct], is one of the orders PostgreSQL may
    return, and statements about both results compare them up to order. *)
Definition list_active_indexers (rs : list Row) (indexers : option (list string))
  (from_timestamp : Z) : result (list string) :=
  let clause := in_clause indexers in
  if negb (sql_parses clause) then Err SyntaxError else
  let params := bind_params from_timestamp indexers in
  sel <- where_all (active_where from_timestamp params clause) rs ;;
  get_strings (distinct opt_str_eqb (map account_of sel)).

Record IndexerStats := {
  graph_account : string;
  message_count : Z;
  subgraphs_count : Z;
}.

Fixpoint somes {A} (l : list (option A)) : list A :=
  match l with
  | [] => []
  | Some x :: l' => x :: somes l'
  | None :: l' => somes l'
  end.

Definition group_rows (sel : list Row) (g : option string) : list Row :=
  filter (fun r => opt_str_eqb (account_of r) g) sel.

(** One output row of the GROUP BY: the row count [COUNT] and
    [COUNT(DISTINCT message->>'identifier')] (NULLs not counted), decoded by
    [FromRow] into [IndexerStats] (a NULL key is a decode error). *)
Definition stats_of_group (sel : list Row) (g : option string) : result IndexerStats :=
  match g with
  | None => Err ColumnDecode
  | Some a =>
      let grp := group_rows sel g in
      Ok {| graph_account := a;
            message_count := Z.of_nat (List.length grp);
            subgraphs_count :=
              Z.of_nat (List.length
                (distinct String.eqb (somes (map (fun r => m_identifier (message r)) grp)))) |}
  end.

Fixpoint map_result {A B} (f : A -> result B) (l : list A) : result (list B) :=
  match l with
  | [] => Ok []
  | x :: l' => y <- f x ;; tl <- map_result f l' ;; Ok (y :: tl)
  end.

Definition get_indexer_stats (rs : list Row) (indexers : option (list string))
  (from_timestamp : Z) : result (list IndexerStats) :=
  let clause := in_clause indexers in
  if negb (sql_parses clause) then Err SyntaxError else
  let params := bind_params from_timestamp indexers in
  sel <- where_all (active_where from_timestamp params clause) rs ;;
  map_result (stats_of_group sel) (distinct opt_str_eqb (map account_of sel)).

(* ------------------------------------------------------------------ *)
(** ** Ingestion: [add_message] and the decoder fan-in [process_message] *)

Record db := {
  rows : list Row;
  next_id : Z;      (* the bigserial sequence of [messages.id] *)
}.

(** The JSON document of an envelope: the serialized [GraphcastMessage<T>]
    carries [nonce], [graph_account] and [identifier] at top level
    (spec section 6) and the payload. *)
Definition json_of_envelope {T} (wrap : T -> json_payload) (g : GraphcastMessage T)
  : Message :=
  {| m_nonce := NText (Some (gm_nonce g));
     m_graph_account := Some (gm_graph_account g);
     m_identifier := Some (gm_identifier g);
     m_payload := wrap (gm_payload g) |}.

(** [INSERT INTO messages ( message ) VALUES ( $1 ) RETURNING id], for a
    document the [jsonb] column accepts: the statement's own failures (such
    as [jsonb] refusing a string holding the escape \u0000) are not
    represented. *)
Definition add_message (d : db) (m : Message) : db * result Z :=
  ({| rows := rows d ++ [{| id := next_id d; message := m |}];
      next_id := next_id d + 1 |}, Ok (next_id d)).

(** The three decoders [GraphcastMessage::<T>::decode] of graphcast_sdk,
    used by [process_message] on [msg.payload()]. *)
Record Decoders (bytes : Type) := {
  decode_poi : bytes -> option (GraphcastMessage PublicPoiMessage);
  decode_upgrade : bytes -> option (GraphcastMessage UpgradeIntentMessage);
  decode_simple : bytes -> option (GraphcastMessage SimpleMessage);
}.
Arguments decode_poi {bytes} d b.
Arguments decode_upgrade {bytes} d b.
Arguments decode_simple {bytes} d b.

Definition process_message {bytes} (dec : Decoders bytes) (d : db) (payload : bytes)
  : db * result Z :=
  match decode_poi dec payload with
  | Some msg => add_message d (json_of_envelope JPoi msg)
  | None =>
      match decode_upgrade dec payload with
      | Some msg => add_message d (json_of_envelope JUpgrade msg)
      | None =>
          match decode_simple dec payload with
          | Some msg => add_message d (json_of_envelope JSimple msg)
          | None => (d, Err Unsupported)
          end
      end
  end.

(* ------------------------------------------------------------------ *)
(** ** [RadioPayload::valid_outer] ([src/message_types.rs]) *)

Inductive MessageError := InvalidFields.

Inductive checked (A : Type) :=
| Valid (a : A)
| Invalid (e : MessageError).
Arguments Valid {A} a.
Arguments Invalid {A} e.

Class RadioPayload (T : Type) := {
  valid_outer : T -> GraphcastMessage T -> checked T
}.

#[export] Instance PublicPoiMessage_RadioPayload : RadioPayload PublicPoiMessage := {
  valid_outer self outer :=
    if (poi_nonce self =? gm_nonce outer)
       && String.eqb (poi_graph_account self) (gm_graph_account outer)
       && String.eqb (poi_identifier self) (gm_identifier outer)
    then Valid self else Invalid InvalidFields
}.

#[export] Instance SimpleMessage_RadioPayload : RadioPayload SimpleMessage := {
  valid_outer self outer :=
    if String.eqb (sm_identifier self) (gm_identifier outer)
    then Valid self else Invalid InvalidFields
}.

#[export] Instance UpgradeIntentMessage_RadioPayload : RadioPayload UpgradeIntentMessage := {
  valid_outer self outer :=
    if (ui_nonce self =? gm_nonce outer)
       && String.eqb (ui_graph_account self) (gm_graph_account outer)
    then Valid self else Invalid InvalidFields
}.

(** Modelled from the spec: [GraphcastMessage::<T>::decode] lives in the
    graphcast_sdk crate; section 4.1 requires it to parse the envelope and
    then apply [valid_outer], rejecting an envelope whose duplicated fields
    disagree with the payload.  [parse] is the wire-format parser. *)
Definition decode_checked {bytes T} `{RadioPayload T}
  (parse : bytes -> option (GraphcastMessage T)) (b : bytes)
  : option (GraphcastMessage T) :=
  match parse b with
  | None => None
  | Some g =>
      match valid_outer (gm_payload g) g with
      | Valid _ => Some g
      | Invalid _ => None
      end
  end.

(* ------------------------------------------------------------------ *)
(** ** The scheduler loop of [RadioOperator::run] *)

(** Outcome of [timeout(update_timeout, fut).await]. *)
Inductive timed (A : Type) :=
| Completed (r : result A)
| Elapsed.
Arguments Completed {A} r.
Arguments Elapsed {A}.

Inductive level := Trace | Debug | Info | Warn.

Record log := { lvl : level; text : string }.

Inductive iteration_end :=
| Continue        (* the loop goes on to its next iteration *)
| Panicked.       (* the task running [run] panics: the loop is over *)

(** The summary tick: [max_storage] is the configured cap, the three
    [timed] values are what the three timeouts yield.  Returns how the
    iteration ends, [total_num_pruned] and the log lines. *)
Definition summary_tick (max_storage : option Z)
  (retain_res prune_res count_res : timed Z) : iteration_end * Z * list log :=
  let '(total1, logs1) :=
    match max_storage with
    | None => (0, [])
    | Some _ =>
        match retain_res with
        | Elapsed => (0, [{| lvl := Debug; text := "Pruning by max storage timed out" |}])
        | Completed (Ok num_pruned) => (num_pruned, [])
        | Completed (Err _) =>
            (0, [{| lvl := Warn; text := "Error during pruning by max storage" |}])
        end
    end in
  let '(total2, logs2) :=
    match prune_res with
    | Elapsed => (total1, [{| lvl := Debug; text := "Pruning by retention timed out" |}])
    | Completed (Ok num_pruned) => (total1 + num_pruned, [])
    | Completed (Err _) =>
        (total1, [{| lvl := Warn; text := "Error during pruning by retention" |}])
    end in
  (* timeout(update_timeout, count_messages(&self.db)).await.expect(...) *)
  match count_res with
  | Elapsed => (Panicked, total2, logs1 ++ logs2)
  | Completed (Err _) =>
      (Continue, total2, logs1 ++ logs2 ++
         [{| lvl := Warn; text := "Database query for message count timed out" |}])
  | Completed (Ok _) =>
      (Continue, total2, logs1 ++ logs2 ++ [{| lvl := Info; text := "Monitoring summary" |}])
  end.








(* ------------------------------------------------------------------ *)
(** ** Predicates used in the statements *)

(** [a] comes before [b] in [ORDER BY id DESC]. *)
Definition id_ge (a b : Row) : Prop := id b <= id a.

Definition ok_or_false (m : result bool) : bool :=
  match m with Ok b => b | Err _ => false end.

(** [CAST(message->>'nonce' AS BIGINT) > from_ts] holds for the row. *)
Definition nonce_after (from_ts : Z) (r : Row) : bool :=
  match row_nonce r with
  | Ok n => is_true3 (sql_gt n from_ts)
  | Err _ => false
  end.

(** The store invariant of spec section 3 as the queries need it: the
    nonce casts and the sender account is present. *)
Definition row_wf (r : Row) : Prop := nonce_castable r /\ account_of r <> None.

(** The rows of sender [a] with a nonce after [from_ts]. *)
Definition sender_rows (rs : list Row) (a : string) (from_ts : Z) : list Row :=
  filter (fun r => opt_str_eqb (account_of r) (Some a) && nonce_after from_ts r) rs.

(** The allow-list part of the WHERE clause as a function of the account. *)
Definition allowed (indexers : option (list string)) (acc : option string) : bool :=
  match indexers with
  | None => true
  | Some idxs =>
      match acc with
      | Some a => existsb (String.eqb a) idxs
      | None => false
      end
  end.

Definition identifiers (rs : list Row) : list string :=
  somes (map (fun r => m_identifier (message r)) rs).

(* ------------------------------------------------------------------ *)
(** ** Concrete inputs *)

Definition poi_row (i nonce : Z) (account ident : string) : Row :=
  {| id := i;
     message := {| m_nonce := NText (Some nonce); m_graph_account := Some account;
                   m_identifier := Some ident; m_payload := JOther |} |}.

Definition now_T : Z := 1707328517.

(** A row stored from an envelope whose [u64] nonce is [2^63]: its text is
    out of range for [bigint]. *)
Definition row_big_nonce : Row := poi_row 1 (2 ^ 63) "0xaa" "QmA".
Definition row_old : Row := poi_row 2 (now_T - 600) "0xaa" "QmA".
Definition row_new : Row := poi_row 3 (now_T - 120) "0xbb" "QmB".
Definition row_no_nonce : Row :=
  {| id := 4;
     message := {| m_nonce := NNull; m_graph_account := Some "0xcc"%string;
                   m_identifier := Some "QmC"%string; m_payload := JOther |} |}.

Definition row_at_T : Row := poi_row 5 now_T "0xdd" "QmD".

(** Three messages from two senders, the first sender on one subgraph. *)
Definition rows_scenario3 : list Row :=
  [poi_row 1 1707328517 "0xaa50" "QmUnique1";
   poi_row 2 1707328518 "0xaa50" "QmUnique1";
   poi_row 3 1707328519 "0xaa51" "QmUnique2"].

(** A sample envelope of each payload type. *)
Definition poi_env : GraphcastMessage PublicPoiMessage :=
  {| gm_identifier := "QmA"; gm_nonce := now_T; gm_graph_account := "0xaa";
     gm_signature := "0x5ig";
     gm_payload := {| poi_identifier := "QmA"; poi_content := "0xp0i"; poi_nonce := now_T;
                      poi_network := "mainnet"; poi_block_number := 19000000;
                      poi_block_hash := "0xb10c"; poi_graph_account := "0xaa" |} |}.

Definition upgrade_env : GraphcastMessage UpgradeIntentMessage :=
  {| gm_identifier := "QmA"; gm_nonce := now_T; gm_graph_account := "0xaa";
     gm_signature := "0x5ig";
     gm_payload := {| ui_deployment := "QmA"; ui_subgraph_id := "5ub"; ui_new_hash := "QmB";
                      ui_nonce := now_T; ui_graph_account := "0xaa" |} |}.

Definition simple_env : GraphcastMessage SimpleMessage :=
  {| gm_identifier := "QmA"; gm_nonce := now_T; gm_graph_account := "0xaa";
     gm_signature := "0x5ig";
     gm_payload := {| sm_identifier := "QmA"; sm_content := "ping" |} |}.

(** Decoders over buffers numbered by [nat]: buffer 0 decodes both as a
    [PublicPoiMessage] and as a [SimpleMessage], buffer 1 as an
    [UpgradeIntentMessage], buffer 2 as a [SimpleMessage] only, and no
    other buffer decodes. *)
Definition sample_decoders : Decoders nat :=
  {| decode_poi := fun n => if Nat.eqb n 0 then Some poi_env else None;
     decode_upgrade := fun n => if Nat.eqb n 1 then Some upgrade_env else None;
     decode_simple := fun n => if Nat.eqb n 0 || Nat.eqb n 2 then Some simple_env else None |}.

Definition empty_db : db := {| rows := []; next_id := 1 |}.



(* ================================================================== *)
(** * The remaining resolvers of [src/db/resolver.rs] *)

(** The errors of sqlx's [fetch_one] / [fetch_all] that these resolvers can
    meet: no row returned, or a [message] column whose JSON does not
    deserialize into the requested [T]. *)
Inductive sqlx_error := RowNotFound | DecodeFailed.

Inductive fetched (A : Type) :=
| Fetched (a : A)
| FetchErr (e : sqlx_error).
Arguments Fetched {A} a.
Arguments FetchErr {A} e.

Section Resolvers.
(** [message as "message: Json<T>"]: serde's deserialization of the stored
    document into [T]. *)
Context {T : Type} (dec : Message -> option T).

(** The resolvers' [Row<T>]: [id] and the decoded message. *)
Record RowT := { row_id : Z; row_message : T }.

Definition decode_row (r : Row) : fetched RowT :=
  match dec (message r) with
  | Some t => Fetched {| row_id := id r; row_message := t |}
  | None => FetchErr DecodeFailed
  end.

(** [fetch_all]: every returned row is decoded, the first failure is the
    error. *)
Fixpoint decode_rows (rs : list Row) : fetched (list RowT) :=
  match rs with
  | [] => Fetched []
  | r :: rs' =>
      match decode_row r with
      | FetchErr e => FetchErr e
      | Fetched x =>
          match decode_rows rs' with
          | FetchErr e => FetchErr e
          | Fetched xs => Fetched (x :: xs)
          end
      end
  end.

(** [fetch_one]: the first returned row, [RowNotFound] when there is none. *)
Definition fetch_one (rs : list Row) : fetched RowT :=
  match rs with
  | [] => FetchErr RowNotFound
  | r :: _ => decode_row r
  end.

(** [SELECT id, message FROM messages ORDER BY id] *)
Definition list_messages (d : db) : fetched (list RowT) :=
  decode_rows (order_by_id_asc (rows d)).

(** [SELECT id, message FROM messages WHERE id = $1] *)
Definition message_by_id (d : db) (i : Z) : fetched RowT :=
  fetch_one (filter (fun r => id r =? i) (rows d)).

(** [DELETE FROM messages WHERE id = $1 RETURNING id, message]: the
    statement commits before the returned row is decoded. *)
Definition delete_message_by_id (d : db) (i : Z) : db * fetched RowT :=
  ({| rows := filter (fun r => negb (id r =? i)) (rows d); next_id := next_id d |},
   fetch_one (filter (fun r => id r =? i) (rows d))).

(** [DELETE FROM messages RETURNING id, message] *)
Definition delete_message_all (d : db) : db * fetched (list RowT) :=
  ({| rows := []; next_id := next_id d |}, decode_rows (rows d)).
End Resolvers.
Arguments RowT T : clear implicits.

(** [SELECT COUNT( * ) FROM messages] *)
Definition count_messages (d : db) : Z := Z.of_nat (List.length (rows d)).

(** The [bigserial] sequence is ahead of every stored [id], and [id] is the
    primary key. *)
Definition db_wf (d : db) : Prop :=
  ids_unique (rows d) /\ forall r, In r (rows d) -> id r < next_id d.

(** [max_storage as usize] on the [Option<i32>] of the configuration
    ([as] sign-extends a negative [i32] into [usize]). *)
Definition i32_as_usize (x : Z) : Z := if x <? 0 then x + 2 ^ 64 else x.

Definition i32_min : Z := - 2 ^ 31.
Definition i32_max : Z := 2 ^ 31 - 1.

(* ------------------------------------------------------------------ *)
(** ** [QueryRoot::query_aggregate_stats] ([src/server/model/mod.rs]) *)

(** A [HashMap<String, V>] as an association list with unique keys. *)
Fixpoint hm_get {V} (k : string) (m : list (string * V)) : option V :=
  match m with
  | [] => None
  | (k', v) :: m' => if String.eqb k k' then Some v else hm_get k m'
  end.

(** [*m.entry(k).or_insert_with(dflt) = f(..)]: update in place, or insert. *)
Fixpoint hm_entry {V} (k : string) (dflt : V) (f : V -> V) (m : list (string * V))
  : list (string * V) :=
  match m with
  | [] => [(k, f dflt)]
  | (k', v) :: m' => if String.eqb k k' then (k', f v) :: m' else (k', v) :: hm_entry k dflt f m'
  end.

Section AggregateStats.
(** The [+=] on [i64] of the build profile (wrapping or checked); the
    statements below hold for either. *)
Context (add_i64 : Z -> Z -> Z).
(** [(total_count as f64 / count as f64).ceil() as i64] *)
Context (f64_ceil_div : Z -> nat -> Z).

Record aggregate_maps := {
  total_message_count : list (string * Z);
  total_subgraphs_count : list (string * Z);
  subgraphs_counts : list (string * list Z);
}.

(** One turn of [for stat in aggregates { ... }]; the aggregates are read by
    the fields the loop uses ([graph_account], [message_count],
    [subgraphs_count]). *)
Definition aggregate_step (acc : aggregate_maps) (stat : IndexerStats) : aggregate_maps :=
  {| total_message_count :=
       hm_entry (graph_account stat) 0 (fun v => add_i64 v (message_count stat))
                (total_message_count acc);
     total_subgraphs_count :=
       hm_entry (graph_account stat) 0 (fun v => add_i64 v (subgraphs_count stat))
                (total_subgraphs_count acc);
     subgraphs_counts :=
       hm_entry (graph_account stat) [] (fun l => l ++ [subgraphs_count stat])
                (subgraphs_counts acc) |}.

Definition aggregate_loop (aggregates : list IndexerStats) : aggregate_maps :=
  fold_left aggregate_step aggregates
    {| total_message_count := []; total_subgraphs_count := []; subgraphs_counts := [] |}.

(** The divisor used for [key]:
    [subgraphs_counts.get(key).map_or(1, |counts| counts.len())]. *)
Definition average_count (m : aggregate_maps) (key : string) : nat :=
  match hm_get key (subgraphs_counts m) with
  | None => 1
  | Some counts => List.length counts
  end.

Definition average_subgraphs_count (m : aggregate_maps) : list (string * Z) :=
  map (fun '(key, total_count) =>
         let count := average_count m key in
         (key, if (0 <? count)%nat then f64_ceil_div total_count count else 0))
      (total_subgraphs_count m).
End AggregateStats.

(** Accounts of the aggregate rows, in order. *)
Definition agg_accounts (aggregates : list IndexerStats) : list string :=
  map graph_account aggregates.

(** The size of the group of key [k] in [l]. *)
Definition group_size {A K} (eqb : K -> K -> bool) (key : A -> K) (l : list A) (k : K) : nat :=
  List.length (filter (fun x => eqb (key x) k) l).

(** A table of two rows whose id sequence is at 4. *)
Definition sample_db : db := {| rows := [row_old; row_new]; next_id := 4 |}.

(* ================================================================== *)
(** * Facts about lists, sorting and WHERE clauses *)


Section ListFacts.
Context {A : Type}.

Lemma length_filter_split (f : A -> bool) (l : list A) :
  (List.length (filter f l) + List.length (filter (fun x => negb (f x)) l) = List.length l)%nat.
Proof.
  induction l as [|x l IH]; simpl; [reflexivity|].
  destruct (f x); simpl; lia.
Qed.

Lemma filter_filter_and (f g : A -> bool) (l : list A) :
  filter f (filter g l) = filter (fun x => f x && g x) l.
Proof.
  induction l as [|x l IH]; simpl; [reflexivity|].
  destruct (f x) eqn:Ef, (g x) eqn:Eg; simpl; rewrite ?Ef, ?Eg, ?IH; reflexivity.
Qed.

Lemma filter_length_le (f : A -> bool) (l : list A) :
  (List.length (filter f l) <= List.length l)%nat.
Proof.
  induction l as [|x l IH]; simpl; [lia|]. destruct (f x); simpl; lia.
Qed.

Lemma filter_none_negb (f : A -> bool) (l : list A) :
  filter f l = [] -> filter (fun x => negb (f x)) l = l.
Proof.
  induction l as [|x l IH]; simpl; [reflexivity|].
  destruct (f x); simpl; [discriminate|]. intros H. now rewrite IH.
Qed.

Lemma filter_all_true (f : A -> bool) (l : list A) :
  (forall x, In x l -> f x = true) -> filter f l = l.
Proof.
  induction l as [|x l IH]; simpl; intros H; [reflexivity|].
  rewrite (H x (or_introl eq_refl)), IH; auto.
Qed.

Lemma Permutation_filter_bool (f : A -> bool) (l l' : list A) :
  Permutation l l' -> Permutation (filter f l) (filter f l').
Proof.
  induction 1 as [|x l l' _ IH|x y l|l l' l'' _ IH1 _ IH2]; simpl.
  - constructor.
  - destruct (f x); auto.
  - destruct (f x), (f y); auto using Permutation_refl, perm_swap.
  - eapply perm_trans; eauto.
Qed.

Lemma In_firstn_In (n : nat) (x : A) (l : list A) : In x (firstn n l) -> In x l.
Proof.
  intros H. rewrite <- (firstn_skipn n l). apply in_or_app. now left.
Qed.

Lemma NoDup_firstn_nat (n : nat) (l : list A) : NoDup l -> NoDup (firstn n l).
Proof.
  intros H. rewrite <- (firstn_skipn n l) in H. eapply NoDup_app_remove_r; eauto.
Qed.

Lemma NoDup_map_filter {B} (g : A -> B) (f : A -> bool) (l : list A) :
  NoDup (map g l) -> NoDup (map g (filter f l)).
Proof.
  induction l as [|x l IH]; simpl; intros H; [constructor|].
  inversion H as [|? ? Hnin Hnd]; subst.
  destruct (f x); simpl; auto.
  constructor; auto. intros Hin. apply Hnin.
  apply in_map_iff in Hin as [y [Hy Hiny]]. apply filter_In in Hiny.
  apply in_map_iff. exists y. tauto.
Qed.

End ListFacts.

Lemma insert_by_perm le r l : Permutation (insert_by le r l) (r :: l).
Proof.
  induction l as [|r' l IH]; simpl; [auto|].
  destruct (le (id r) (id r')); [auto|].
  eapply perm_trans; [apply perm_skip, IH|apply perm_swap].
Qed.

Lemma sort_by_perm le l : Permutation (sort_by le l) l.
Proof.
  induction l as [|r l IH]; simpl; [auto|].
  eapply perm_trans; [apply insert_by_perm|auto].
Qed.

Lemma mem_id_In x ids : mem_id x ids = true <-> In x ids.
Proof.
  unfold mem_id. rewrite existsb_exists. split.
  - intros [y [Hy E]]. apply Z.eqb_eq in E. now subst.
  - intros H. exists x. split; [exact H|apply Z.eqb_refl].
Qed.

Lemma id_inj rs a b :
  ids_unique rs -> In a rs -> In b rs -> id a = id b -> a = b.
Proof.
  unfold ids_unique.
  induction rs as [|r rs IH]; simpl; intros ND Ha Hb E; [contradiction|].
  inversion ND as [|? ? Hnin Hnd]; subst.
  destruct Ha as [<-|Ha], Hb as [<-|Hb]; auto.
  - exfalso. apply Hnin. rewrite E. now apply in_map.
  - exfalso. apply Hnin. rewrite <- E. now apply in_map.
Qed.

Lemma ids_unique_filter f rs : ids_unique rs -> ids_unique (filter f rs).
Proof. apply NoDup_map_filter. Qed.

(** Deleting by a duplicate-free list of existing keys removes exactly as
    many rows as there are keys. *)
Lemma count_rows_with_ids rs ids :
  ids_unique rs -> NoDup ids -> incl ids (map id rs) ->
  List.length (filter (fun r => mem_id (id r) ids) rs) = List.length ids.
Proof.
  intros Hu Hids Hincl.
  rewrite <- (length_map id).
  apply Permutation_length, NoDup_Permutation; auto.
  - now apply NoDup_map_filter.
  - intros x. rewrite in_map_iff. split.
    + intros [r [<- Hr]]. apply filter_In in Hr as [_ Hm]. now apply mem_id_In.
    + intros Hx. destruct (in_map_iff id rs x) as [Hd _].
      destruct (Hd (Hincl x Hx)) as [r [Er Hr]]. exists r. split; [exact Er|].
      apply filter_In. split; [exact Hr|]. apply mem_id_In. now rewrite Er.
Qed.

(** WHERE clauses *)

Lemma where_all_filter (p : Row -> result bool) (f : Row -> bool) rs :
  (forall r, In r rs -> p r = Ok (f r)) -> where_all p rs = Ok (filter f rs).
Proof.
  induction rs as [|r rs IH]; intros H; simpl; [reflexivity|].
  rewrite (H r (or_introl eq_refl)). cbn.
  rewrite IH by (intros; apply H; now right). cbn.
  destruct (f r); reflexivity.
Qed.

Lemma where_all_ok_inv (p : Row -> result bool) rs l :
  where_all p rs = Ok l -> forall r, In r rs -> exists b, p r = Ok b.
Proof.
  revert l. induction rs as [|r0 rs IH]; simpl; intros l H r Hr; [contradiction|].
  destruct (p r0) as [b0|e] eqn:Ep; cbn in H; [|discriminate].
  destruct (where_all p rs) as [tl|e] eqn:Ew; cbn in H; [|discriminate].
  destruct Hr as [<-|Hr]; eauto.
Qed.

Lemma where_all_err_inv (p : Row -> result bool) rs e :
  where_all p rs = Err e -> exists r, In r rs /\ p r = Err e.
Proof.
  induction rs as [|r0 rs IH]; simpl; intros H; [discriminate|].
  destruct (p r0) as [b0|e0] eqn:Ep; cbn in H.
  - destruct (where_all p rs) as [tl|e1] eqn:Ew; cbn in H; [discriminate|].
    inversion H; subst. destruct (IH eq_refl) as [r [? ?]]. eauto.
  - inversion H; subst. eauto.
Qed.

(* ================================================================== *)
(** * [prune_old_messages] *)

Lemma prune_pred_castable c r :
  nonce_castable r ->
  (n <- row_nonce r ;; Ok (is_true3 (sql_lt n c))) = Ok (eligible c r).
Proof. intros [v Hv]. unfold eligible. now rewrite Hv. Qed.

Lemma prune_batch_ok_shape rs c b rs' k :
  prune_batch rs c b = Ok (rs', k) ->
  k = Z.of_nat (List.length rs - List.length rs') /\
  (List.length rs' <= List.length rs)%nat /\ incl rs' rs.
Proof.
  unfold prune_batch. destruct (b <? 0); [discriminate|].
  destruct (b =? 0).
  { intros H; inversion H; subst. rewrite Nat.sub_diag.
    split; [reflexivity|]. split; [lia|]. apply incl_refl. }
  destruct (where_all _ _) as [sel|e]; cbn; [|discriminate].
  intros H; inversion H; subst. split; [reflexivity|].
  split; [apply filter_length_le|].
  intros x Hx. apply filter_In in Hx. tauto.
Qed.

(** One batch on a table whose nonces all cast: it deletes the
    [min batch_size #eligible] eligible rows of smallest id and nothing else. *)
Lemma prune_batch_spec rs c b :
  0 <= b -> ids_unique rs -> (forall r, In r rs -> nonce_castable r) ->
  let ids := map id (firstn (Z.to_nat b) (filter (eligible c) (order_by_id_asc rs))) in
  let rs' := filter (fun r => negb (mem_id (id r) ids)) rs in
  prune_batch rs c b = Ok (rs', Z.of_nat (List.length ids)) /\
  List.length ids = Nat.min (Z.to_nat b) (List.length (filter (eligible c) rs)) /\
  filter (fun r => negb (eligible c r)) rs' = filter (fun r => negb (eligible c r)) rs /\
  (List.length (filter (eligible c) rs') + List.length ids
   = List.length (filter (eligible c) rs))%nat.
Proof.
  intros Hb Hu Hc ids rs'.
  assert (Hcomp : prune_batch rs c b
                  = Ok (rs', Z.of_nat (List.length rs - List.length rs'))).
  { unfold prune_batch.
    replace (b <? 0) with false by (symmetry; apply Z.ltb_ge; lia).
    destruct (b =? 0) eqn:E0.
    { apply Z.eqb_eq in E0. subst b. unfold rs', ids. cbn [Z.to_nat firstn map].
      rewrite filter_all_true by reflexivity. now rewrite Nat.sub_diag. }
    rewrite (where_all_filter _ (eligible c)).
    - reflexivity.
    - intros r Hr. apply prune_pred_castable, Hc.
      eapply Permutation_in; [apply sort_by_perm|exact Hr]. }
  set (S := filter (eligible c) (order_by_id_asc rs)) in *.
  assert (HS : Permutation S (filter (eligible c) rs))
    by (apply Permutation_filter_bool, sort_by_perm).
  assert (HD : forall x, In x (firstn (Z.to_nat b) S) -> In x rs /\ eligible c x = true).
  { intros x Hx. apply In_firstn_In in Hx.
    apply (Permutation_in _ HS) in Hx. now apply filter_In in Hx. }
  assert (Hnd : NoDup ids).
  { unfold ids. rewrite <- firstn_map. apply NoDup_firstn_nat.
    eapply Permutation_NoDup; [apply Permutation_map, Permutation_sym, HS|].
    now apply NoDup_map_filter. }
  assert (Hincl : incl ids (map id rs)).
  { intros x Hx. unfold ids in Hx. apply in_map_iff in Hx as [d [<- Hd]].
    apply in_map. now apply HD. }
  assert (Helig : forall r, In r rs -> mem_id (id r) ids = true -> eligible c r = true).
  { intros r Hr Hm. apply mem_id_In in Hm. unfold ids in Hm.
    apply in_map_iff in Hm as [d [Ed Hd]]. apply HD in Hd as [Hdr Hde].
    rewrite <- (id_inj rs d r Hu Hdr Hr Ed). exact Hde. }
  assert (Hcount := count_rows_with_ids rs ids Hu Hnd Hincl).
  assert (Hsplit := length_filter_split (fun r => mem_id (id r) ids) rs).
  split; [|split; [|split]].
  - rewrite Hcomp. cbv beta in Hsplit. fold rs' in Hsplit. do 2 f_equal. lia.
  - unfold ids. rewrite length_map, length_firstn, (Permutation_length HS). reflexivity.
  - unfold rs'. rewrite filter_filter_and. apply filter_ext_in. intros r Hr.
    destruct (mem_id (id r) ids) eqn:Em; simpl.
    + now rewrite (Helig r Hr Em).
    + now rewrite andb_true_r.
  - assert (Hs2 := length_filter_split (fun r => mem_id (id r) ids)
                     (filter (eligible c) rs)).
    rewrite !filter_filter_and in Hs2.
    rewrite (filter_ext_in (fun x => mem_id (id x) ids && eligible c x)
               (fun r => mem_id (id r) ids)) in Hs2.
    2:{ intros r Hr. destruct (mem_id (id r) ids) eqn:Em; simpl; [|reflexivity].
        now apply Helig. }
    unfold rs'. rewrite filter_filter_and.
    rewrite (filter_ext (fun x => eligible c x && negb (mem_id (id x) ids))
               (fun x => negb (mem_id (id x) ids) && eligible c x))
      by (intros; apply andb_comm).
    lia.
Qed.

(** The loop on a table whose nonces all cast, with enough fuel. *)
Lemma prune_loop_spec fuel rs c b total :
  1 <= b -> ids_unique rs -> (forall r, In r rs -> nonce_castable r) ->
  (List.length (filter (eligible c) rs) < fuel)%nat ->
  prune_loop fuel rs c b total
  = Some (filter (fun r => negb (eligible c r)) rs,
          Ok (total + Z.of_nat (List.length (filter (eligible c) rs)))).
Proof.
  revert rs total. induction fuel as [|fuel IH]; intros rs total Hb Hu Hc Hf; [lia|].
  destruct (prune_batch_spec rs c b ltac:(lia) Hu Hc)
    as [Hcomp [Hlen [Hkeep Hcnt]]].
  simpl. rewrite Hcomp.
  set (ids := map id (firstn (Z.to_nat b) (filter (eligible c) (order_by_id_asc rs))))
    in *.
  set (rs' := filter (fun r => negb (mem_id (id r) ids)) rs) in *.
  assert (Hu' : ids_unique rs') by apply ids_unique_filter, Hu.
  assert (Hc' : forall r, In r rs' -> nonce_castable r).
  { intros r Hr. apply filter_In in Hr. now apply Hc. }
  destruct (Z.of_nat (List.length ids) <? b) eqn:Elt.
  - apply Z.ltb_lt in Elt.
    assert (Hz : List.length (filter (eligible c) rs') = 0%nat) by lia.
    apply length_zero_iff_nil, filter_none_negb in Hz.
    rewrite <- Hkeep, Hz. do 3 f_equal. lia.
  - apply Z.ltb_ge in Elt.
    rewrite IH by (auto; lia).
    rewrite Hkeep. do 3 f_equal. lia.
Qed.

(** Whatever the table, the loop stops within [length rs + 1] iterations
    when [batch_size >= 1]: a batch that does not end it deletes at least
    one row. *)
Lemma prune_loop_stops fuel rs c b total :
  1 <= b -> (List.length rs < fuel)%nat ->
  exists res, prune_loop fuel rs c b total = Some res.
Proof.
  revert rs total. induction fuel as [|fuel IH]; intros rs total Hb Hf; [lia|].
  simpl. destruct (prune_batch rs c b) as [[rs' k]|e] eqn:Eb; [|eauto].
  apply prune_batch_ok_shape in Eb as [Hk [Hle _]].
  destruct (k <? b) eqn:Elt; [eauto|].
  apply Z.ltb_ge in Elt. apply IH; lia.
Qed.

Lemma prune_batch_zero rs c : prune_batch rs c 0 = Ok (rs, 0).
Proof. reflexivity. Qed.

Lemma prune_loop_zero fuel rs c total : prune_loop fuel rs c 0 total = None.
Proof.
  revert total. induction fuel as [|fuel IH]; intros total; [reflexivity|].
  cbn [prune_loop]. rewrite (prune_batch_zero rs c). cbn. apply IH.
Qed.

(** A nonce that does not cast makes the first batch fail. *)
Lemma prune_batch_uncastable rs c b r :
  1 <= b -> In r rs -> ~ nonce_castable r -> prune_batch rs c b = Err InvalidBigint.
Proof.
  intros Hb Hr Hnc. unfold prune_batch.
  replace (b <? 0) with false by (symmetry; apply Z.ltb_ge; lia).
  replace (b =? 0) with false by (symmetry; apply Z.eqb_neq; lia).
  destruct (where_all _ (order_by_id_asc rs)) as [sel|e] eqn:Ew.
  - exfalso. apply Hnc.
    assert (Hr' : In r (order_by_id_asc rs))
      by (eapply Permutation_in; [apply Permutation_sym, sort_by_perm|exact Hr]).
    destruct (where_all_ok_inv _ _ _ Ew r Hr') as [bv Hp].
    unfold nonce_castable. destruct (row_nonce r) as [v|e]; [eauto|discriminate].
  - apply where_all_err_inv in Ew as [r0 [_ Hp]]. cbn.
    unfold row_nonce, cast_bigint in Hp.
    destruct (m_nonce (message r0)) as [|[z|]]; [discriminate| |].
    + destruct (in_i64 z); [discriminate|]. now inversion Hp.
    + now inversion Hp.
Qed.

(** C1 (amended): for [batch_size >= 1] on a table whose nonces are all
    missing or 64-bit integers, [prune_old_messages] deletes exactly the rows
    with [nonce < now - retention*60] (rows with a missing nonce are kept) and
    returns their number; a row whose nonce does not cast to [bigint] is not
    excluded by the predicate: it is never deleted, but it makes the call
    fail with an error. *)
Theorem prune_old_messages_exact now rs retention batch_size :
  1 <= batch_size -> ids_unique rs ->
  ((forall r, In r rs -> nonce_castable r) ->
   let cutoff := now - retention * 60 in
   exists fuel,
     prune_old_messages fuel now rs retention batch_size
     = Some (filter (fun r => negb (eligible cutoff r)) rs,
             Ok (Z.of_nat (List.length (filter (eligible cutoff) rs))))) /\
  (forall r, In r rs -> ~ nonce_castable r ->
   forall fuel rs' res,
     prune_old_messages fuel now rs retention batch_size = Some (rs', res) ->
     res = Err InvalidBigint /\ In r rs').
Proof.
  intros Hb Hu. split.
  - intros Hc cutoff. exists (S (List.length (filter (eligible cutoff) rs))).
    unfold prune_old_messages. rewrite prune_loop_spec by (auto; lia).
    reflexivity.
  - intros r Hr Hnc fuel rs' res H. unfold prune_old_messages in H.
    destruct fuel as [|fuel]; [discriminate|]. simpl in H.
    rewrite (prune_batch_uncastable rs _ batch_size r ltac:(lia) Hr Hnc) in H.
    inversion H; subst. auto.
Qed.

Lemma prune_old_messages_exact_witness :
  exists fuel, prune_old_messages fuel now_T [row_old; row_new; row_no_nonce] 5 1000
               = Some ([row_new; row_no_nonce], Ok 1).
Proof.
  destruct (prune_old_messages_exact now_T [row_old; row_new; row_no_nonce] 5 1000
              ltac:(lia) ltac:(repeat constructor; simpl; intuition lia)) as [H _].
  destruct H as [fuel Hf].
  - intros r Hr. simpl in Hr.
    destruct Hr as [<-|[<-|[<-|[]]]]; eexists; reflexivity.
  - exists fuel. rewrite Hf. vm_compute. reflexivity.
Defined.

(** C1 as stated fails: with a row whose nonce is out of [bigint] range the
    eligible row is not pruned with a count of 1; the call fails. *)
Lemma prune_old_messages_big_nonce_fails :
  ~ exists fuel,
      prune_old_messages fuel now_T [row_big_nonce; row_old] 5 1000
      = Some ([row_big_nonce], Ok 1).
Proof.
  intros [[|fuel] H]; [discriminate|]. vm_compute in H. discriminate.
Qed.

(** C10 (amended): with [batch_size >= 1] the loop stops within
    [length rs + 1] iterations on every table; with [batch_size = 0] every
    batch deletes nothing and the loop never stops, whatever the table; with
    [batch_size < 0] the
    first statement fails (negative LIMIT) and the call returns an error. *)
Theorem prune_old_messages_termination now rs retention batch_size :
  (1 <= batch_size ->
   exists res, prune_old_messages (S (List.length rs)) now rs retention batch_size
               = Some res) /\
  (batch_size = 0 ->
   forall fuel, prune_old_messages fuel now rs retention batch_size = None) /\
  (batch_size < 0 ->
   prune_old_messages 1 now rs retention batch_size = Some (rs, Err LimitNegative)).
Proof.
  split; [|split].
  - intros Hb. unfold prune_old_messages. apply prune_loop_stops; auto.
  - intros -> fuel. unfold prune_old_messages. now apply prune_loop_zero.
  - intros Hb. unfold prune_old_messages. simpl. unfold prune_batch.
    replace (batch_size <? 0) with true by (symmetry; now apply Z.ltb_lt).
    reflexivity.
Qed.

(** C10 as stated fails: a negative [batch_size] does not prevent
    termination, the call returns (with an error). *)
Lemma prune_old_messages_negative_batch_returns :
  prune_old_messages 1 now_T [row_old] 5 (-1) = Some ([row_old], Err LimitNegative).
Proof. vm_compute. reflexivity. Qed.

(* ================================================================== *)
(** * [retain_max_storage] *)

Lemma insert_desc_sorted r l :
  Sorted id_ge l -> Sorted id_ge (insert_by (fun a b => b <=? a) r l).
Proof.
  unfold id_ge. induction l as [|x l IH]; intros H; simpl.
  - repeat constructor.
  - destruct (id x <=? id r) eqn:E.
    + apply Z.leb_le in E. constructor; [exact H|]. constructor. exact E.
    + apply Z.leb_gt in E. inversion H as [|? ? Hs Hd]; subst.
      constructor; [now apply IH|].
      destruct l as [|y l']; simpl.
      * constructor. lia.
      * destruct (id y <=? id r); constructor; [lia|].
        now inversion Hd.
Qed.

Lemma order_by_id_desc_sorted rs : StronglySorted id_ge (order_by_id_desc rs).
Proof.
  apply Sorted_StronglySorted.
  - intros a b c; unfold id_ge; lia.
  - unfold order_by_id_desc. induction rs as [|r rs IH]; simpl.
    + constructor.
    + now apply insert_desc_sorted.
Qed.

Lemma StronglySorted_firstn_skipn {A} (R : A -> A -> Prop) (l : list A) n x y :
  StronglySorted R l -> In x (firstn n l) -> In y (skipn n l) -> R x y.
Proof.
  revert n. induction l as [|a l IH]; intros n Hs Hx Hy.
  - destruct n; simpl in Hx; contradiction.
  - destruct n as [|n]; simpl in Hx; [contradiction|]. simpl in Hy.
    inversion Hs as [|? ? Hs' Hf]; subst.
    destruct Hx as [<-|Hx].
    + rewrite Forall_forall in Hf. apply Hf.
      rewrite <- (firstn_skipn n l). apply in_or_app. now right.
    + eapply IH; eauto.
Qed.

(** For a cap representable as an [i64], [retain_max_storage] keeps the
    [min n count] rows of highest id, deletes the others and returns how many
    it deleted. *)
Lemma retain_max_storage_keeps_newest rs n :
  0 <= n <= i64_max -> ids_unique rs ->
  exists rs',
    retain_max_storage rs n = (rs', Ok (Z.of_nat (List.length rs - List.length rs'))) /\
    List.length rs' = Nat.min (Z.to_nat n) (List.length rs) /\
    incl rs' rs /\
    (forall r r', In r rs' -> In r' rs -> ~ In r' rs' -> id r' < id r).
Proof.
  intros Hn Hu. unfold retain_max_storage, u64_as_i64.
  replace (n <=? i64_max) with true by (symmetry; apply Z.leb_le; lia).
  replace (n <? 0) with false by (symmetry; apply Z.ltb_ge; lia).
  set (L := order_by_id_desc rs).
  set (top_ids := map id (firstn (Z.to_nat n) L)).
  set (rs' := filter (fun r => mem_id (id r) top_ids) rs).
  assert (HL : Permutation L rs) by apply sort_by_perm.
  assert (Hnd : NoDup top_ids).
  { unfold top_ids. rewrite <- firstn_map. apply NoDup_firstn_nat.
    eapply Permutation_NoDup; [apply Permutation_map, Permutation_sym, HL|exact Hu]. }
  assert (Hincl : incl top_ids (map id rs)).
  { intros x Hx. unfold top_ids in Hx. apply in_map_iff in Hx as [d [<- Hd]].
    apply in_map. apply (Permutation_in _ HL). eapply In_firstn_In; eauto. }
  assert (Hcount := count_rows_with_ids rs top_ids Hu Hnd Hincl).
  assert (Hsplit := length_filter_split (fun r => mem_id (id r) top_ids) rs).
  cbv beta in Hsplit. fold rs' in Hcount, Hsplit.
  exists rs'. split; [|split; [|split]].
  - rewrite length_map. do 3 f_equal. lia.
  - rewrite Hcount. unfold top_ids.
    rewrite length_map, length_firstn, (Permutation_length HL). reflexivity.
  - intros x Hx. apply filter_In in Hx. tauto.
  - intros r r' Hr Hr' Hnr'.
    apply filter_In in Hr as [Hr Hm]. apply mem_id_In in Hm.
    unfold top_ids in Hm. apply in_map_iff in Hm as [d [Ed Hd]].
    assert (Hr'L : In r' (skipn (Z.to_nat n) L)).
    { assert (Hin : In r' L) by (apply (Permutation_in _ (Permutation_sym HL)), Hr').
      rewrite <- (firstn_skipn (Z.to_nat n) L) in Hin.
      apply in_app_or in Hin as [Hin|Hin]; [|exact Hin].
      exfalso. apply Hnr'. apply filter_In. split; [exact Hr'|].
      apply mem_id_In, in_map, Hin. }
    assert (Hge := StronglySorted_firstn_skipn _ _ _ _ _
                     (order_by_id_desc_sorted rs) Hd Hr'L).
    unfold id_ge in Hge. rewrite Ed in Hge.
    destruct (Z.eq_dec (id r') (id r)) as [E|E]; [|lia].
    exfalso. apply Hnr'. rewrite (id_inj rs r' r Hu Hr' Hr E).
    apply filter_In. split; [exact Hr|]. apply mem_id_In. rewrite <- Ed. now apply in_map.
Qed.

(** C2 (code bug): a cap of [2^63] is a valid [usize], but
    [max_storage as i64] wraps it to [i64::MIN]: the LIMIT is negative, the
    call fails and no row is deleted, although [n >= count]. *)
Lemma retain_max_storage_wrapped_cap :
  retain_max_storage [row_old; row_new] (2 ^ 63)
  = ([row_old; row_new], Err LimitNegative).
Proof. vm_compute. reflexivity. Qed.

(* ================================================================== *)
(** * DISTINCT, GROUP BY and the allow-list *)

Section Distinct.
Context {A : Type} (eqb : A -> A -> bool).
Hypothesis eqb_spec : forall x y, eqb x y = true <-> x = y.

Lemma In_distinct l x : In x (distinct eqb l) <-> In x l.
Proof.
  induction l as [|y l IH]; simpl; [tauto|].
  destruct (existsb (eqb y) l) eqn:E; simpl; rewrite IH; [|tauto].
  split; [tauto|]. intros [<-|H]; [|exact H].
  apply existsb_exists in E as [z [Hz Ez]]. apply eqb_spec in Ez. now subst.
Qed.

Lemma NoDup_distinct l : NoDup (distinct eqb l).
Proof.
  induction l as [|y l IH]; simpl; [constructor|].
  destruct (existsb (eqb y) l) eqn:E; [exact IH|].
  constructor; [|exact IH]. rewrite In_distinct. intros H.
  assert (existsb (eqb y) l = true) by (apply existsb_exists; exists y; split; [exact H|now apply eqb_spec]).
  congruence.
Qed.

Lemma distinct_const l i :
  l <> [] -> (forall x, In x l -> x = i) -> distinct eqb l = [i].
Proof.
  induction l as [|y l IH]; intros Hne Hall; [congruence|]. simpl.
  destruct l as [|z l'].
  - simpl. now rewrite (Hall y (or_introl eq_refl)).
  - replace (existsb (eqb y) (z :: l')) with true.
    + apply IH; [discriminate|]. intros x Hx. apply Hall. now right.
    + symmetry. apply existsb_exists. exists z. split; [now left|].
      apply eqb_spec. rewrite (Hall y (or_introl eq_refl)). symmetry. apply Hall. right; now left.
Qed.

End Distinct.

Lemma opt_str_eqb_spec a b : opt_str_eqb a b = true <-> a = b.
Proof.
  destruct a as [x|], b as [y|]; simpl; try (split; congruence).
  rewrite String.eqb_eq. split; congruence.
Qed.

Lemma In_somes {A} (l : list (option A)) a : In a (somes l) <-> In (Some a) l.
Proof.
  induction l as [|[x|] l IH]; simpl; [tauto| |].
  - rewrite IH. split; intros [H|H]; auto; left; congruence.
  - rewrite IH. split; [auto|]. intros [H|H]; [discriminate|exact H].
Qed.

Lemma NoDup_somes {A} (l : list (option A)) : NoDup l -> NoDup (somes l).
Proof.
  induction l as [|[x|] l IH]; simpl; intros H; [constructor| |];
    inversion H as [|? ? Hnin Hnd]; subst.
  - constructor; auto. now rewrite In_somes.
  - auto.
Qed.

Lemma get_strings_somes l :
  (forall x, In x l -> x <> None) -> get_strings l = Ok (somes l).
Proof.
  induction l as [|[x|] l IH]; simpl; intros H; [reflexivity| |].
  - rewrite IH by auto. reflexivity.
  - exfalso. now apply (H None (or_introl eq_refl)).
Qed.

Lemma where_all_ok_eq (p : Row -> result bool) rs l :
  where_all p rs = Ok l -> l = filter (fun r => ok_or_false (p r)) rs.
Proof.
  revert l. induction rs as [|r rs IH]; simpl; intros l H; [now inversion H|].
  destruct (p r) as [b|e]; cbn in H; [|discriminate].
  destruct (where_all p rs) as [tl|e]; cbn in H; [|discriminate].
  inversion H; subst. rewrite <- (IH tl eq_refl). now destruct b.
Qed.

Lemma where_all_all_ok (p : Row -> result bool) rs :
  (forall r, In r rs -> exists b, p r = Ok b) ->
  where_all p rs = Ok (filter (fun r => ok_or_false (p r)) rs).
Proof.
  intros H. apply where_all_filter. intros r Hr.
  destruct (H r Hr) as [b Hb]. now rewrite Hb.
Qed.

Lemma map_result_In {A B} (f : A -> result B) l l' y :
  map_result f l = Ok l' -> In y l' -> exists x, In x l /\ f x = Ok y.
Proof.
  revert l'. induction l as [|x l IH]; simpl; intros l' H Hy.
  - inversion H; subst. contradiction.
  - destruct (f x) as [y0|e] eqn:Ef; cbn in H; [|discriminate].
    destruct (map_result f l) as [tl|e] eqn:Em; cbn in H; [|discriminate].
    inversion H; subst. destruct Hy as [<-|Hy]; [eauto|].
    destruct (IH tl eq_refl Hy) as [x' [? ?]]. eauto.
Qed.

Lemma placeholders_lookup s ts idxs :
  sql_in (Some s) (bind_params ts (Some idxs)) (placeholders idxs)
  = Some (existsb (String.eqb s) idxs).
Proof.
  unfold sql_in. f_equal. apply Bool.eq_iff_eq_true.
  rewrite !existsb_exists. unfold placeholders. split.
  - intros [k [Hk E]]. apply in_map_iff in Hk as [i [<- Hi]].
    apply in_seq in Hi. simpl in E.
    replace (i + 2 - 1)%nat with (S i) in E by lia. simpl in E.
    rewrite nth_error_map in E.
    destruct (nth_error idxs i) as [t|] eqn:Et; simpl in E; [|discriminate].
    exists t. split; [eapply nth_error_In; eauto|exact E].
  - intros [t [Ht E]]. apply In_nth_error in Ht as [i Hi].
    exists (i + 2)%nat. split.
    + apply in_map_iff. exists i. split; [reflexivity|].
      apply in_seq. split; [lia|]. simpl. apply nth_error_Some. congruence.
    + replace (i + 2 - 1)%nat with (S i) by lia. simpl.
      rewrite nth_error_map, Hi. simpl. apply String.eqb_eq in E. subst.
      apply String.eqb_refl.
Qed.

Lemma active_where_value ts indexers r v :
  row_nonce r = Ok v ->
  active_where ts (bind_params ts indexers) (in_clause indexers) r
  = Ok (nonce_after ts r && allowed indexers (account_of r)).
Proof.
  intros Hv. unfold active_where, nonce_after. rewrite Hv. cbn [bind].
  destruct indexers as [idxs|]; [|reflexivity].
  change (in_clause (Some idxs)) with (Some (placeholders idxs)).
  unfold allowed, account_of. cbv beta iota.
  destruct (m_graph_account (message r)) as [a|].
  - rewrite placeholders_lookup. now destruct (existsb (String.eqb a) idxs).
  - reflexivity.
Qed.

Lemma sql_parses_in_clause indexers :
  indexers <> Some [] -> sql_parses (in_clause indexers) = true.
Proof.
  destruct indexers as [[|x l]|]; simpl; auto.
Qed.

Lemma nonce_after_iff ts r :
  nonce_after ts r = true <-> exists z, row_nonce r = Ok (Some z) /\ ts < z.
Proof.
  unfold nonce_after. destruct (row_nonce r) as [[z|]|e]; simpl.
  - split.
    + intros H. exists z. split; [reflexivity|].
      destruct (ts <? z) eqn:E; [now apply Z.ltb_lt|discriminate].
    + intros [z' [E H]]. inversion E; subst. apply Z.ltb_lt in H. now rewrite H.
  - split; [discriminate|]. intros [z' [E _]]. discriminate.
  - split; [discriminate|]. intros [z' [E _]]. discriminate.
Qed.

Lemma allowed_some_iff idxs a : allowed (Some idxs) (Some a) = true <-> In a idxs.
Proof.
  simpl. rewrite existsb_exists. split.
  - intros [t [Ht E]]. apply String.eqb_eq in E. now subst.
  - intros H. exists a. split; [exact H|apply String.eqb_refl].
Qed.

(* ================================================================== *)
(** * [list_active_indexers] *)

Lemma list_active_indexers_members rs indexers ts :
  (forall r, In r rs -> row_wf r) -> indexers <> Some [] ->
  exists l, list_active_indexers rs indexers ts = Ok l /\ NoDup l /\
    forall a, In a l <-> exists r, In r rs /\ account_of r = Some a /\
                               nonce_after ts r = true /\ allowed indexers (Some a) = true.
Proof.
  intros Hwf Hne. unfold list_active_indexers. cbv zeta.
  rewrite (sql_parses_in_clause indexers Hne). cbn [negb].
  rewrite where_all_all_ok.
  2:{ intros r Hr. destruct (Hwf r Hr) as [[v Hv] _].
      eexists. exact (active_where_value ts indexers r v Hv). }
  cbn [bind].
  set (sel := filter _ rs).
  assert (Hsel : forall r, In r sel <->
                   In r rs /\ nonce_after ts r && allowed indexers (account_of r) = true).
  { intros r. unfold sel. rewrite filter_In. split; intros [Hr Hb]; split; auto.
    - destruct (Hwf r Hr) as [[v Hv] _].
      now rewrite (active_where_value ts indexers r v Hv) in Hb.
    - destruct (Hwf r Hr) as [[v Hv] _].
      now rewrite (active_where_value ts indexers r v Hv). }
  rewrite get_strings_somes.
  2:{ intros x Hx. rewrite (In_distinct _ opt_str_eqb_spec) in Hx.
      apply in_map_iff in Hx as [r [<- Hr]]. apply Hsel in Hr as [Hr _].
      apply (Hwf r Hr). }
  eexists. split; [reflexivity|split].
  - apply NoDup_somes, (NoDup_distinct _ opt_str_eqb_spec).
  - intros a. rewrite In_somes, (In_distinct _ opt_str_eqb_spec), in_map_iff. split.
    + intros [r [Ha Hr]]. apply Hsel in Hr as [Hr Hb].
      apply andb_true_iff in Hb as [Hn Hal]. rewrite Ha in Hal. exists r. tauto.
    + intros [r [Hr [Ha [Hn Hal]]]]. exists r. split; [exact Ha|].
      apply Hsel. split; [exact Hr|]. now rewrite Ha, Hn, Hal.
Qed.

(** A WHERE clause whose only error is [e] fails with [e] as soon as one
    row raises it. *)
Lemma where_all_err p rs e :
  (forall r e', p r = Err e' -> e' = e) ->
  (exists r e', In r rs /\ p r = Err e') -> where_all p rs = Err e.
Proof.
  intros Hone. induction rs as [|r0 rs IH]; intros [r [e' [Hr Hp]]]; [destruct Hr|].
  simpl. destruct (p r0) as [b|e0] eqn:E0; cbn [bind].
  - destruct Hr as [<-|Hr]; [congruence|].
    rewrite IH by eauto. reflexivity.
  - now rewrite (Hone r0 e0 E0).
Qed.

Lemma active_where_err ts params clause r e :
  active_where ts params clause r = Err e -> e = InvalidBigint.
Proof.
  unfold active_where, row_nonce, cast_bigint.
  destruct (m_nonce (message r)) as [|[z|]]; cbn; [discriminate| |congruence].
  destruct (in_i64 z); cbn; congruence.
Qed.

(** C4 (amended): on a store satisfying the invariant of spec section 3,
    the unfiltered query returns, without duplicates, exactly the accounts
    of the rows whose nonce is strictly greater than [from_ts]; a row with
    nonce equal to [from_ts] contributes nothing.  On any store, one stored
    nonce above [i64::MAX] makes the call fail with the [bigint] cast
    error. *)
Theorem list_active_indexers_strict rs from_ts :
  ((forall r, In r rs -> row_wf r) ->
   exists l, list_active_indexers rs None from_ts = Ok l /\ NoDup l /\
     forall a, In a l <-> exists r z, In r rs /\ account_of r = Some a /\
                                  row_nonce r = Ok (Some z) /\ from_ts < z) /\
  (forall r z, In r rs -> m_nonce (message r) = NText (Some z) -> i64_max < z ->
   list_active_indexers rs None from_ts = Err InvalidBigint).
Proof.
  split.
  2:{ intros r z Hr Hz Hbig. unfold list_active_indexers. cbn [in_clause sql_parses negb].
      rewrite (where_all_err _ _ InvalidBigint); [reflexivity|apply active_where_err|].
      exists r, InvalidBigint. split; [exact Hr|].
      unfold active_where, row_nonce, cast_bigint. rewrite Hz.
      replace (in_i64 z) with false; [reflexivity|].
      symmetry. unfold in_i64. apply andb_false_iff. right. apply Z.leb_gt. exact Hbig. }
  intros Hwf.
  destruct (list_active_indexers_members rs None from_ts Hwf ltac:(discriminate))
    as [l [Hl [Hnd Hin]]].
  exists l. split; [exact Hl|]. split; [exact Hnd|].
  intros a. rewrite Hin. split.
  - intros [r [Hr [Ha [Hn _]]]]. apply nonce_after_iff in Hn as [z [Hz Hlt]]. eauto 7.
  - intros [r [z [Hr [Ha [Hz Hlt]]]]]. exists r.
    split; [exact Hr|]. split; [exact Ha|]. split; [|reflexivity].
    apply nonce_after_iff. eauto.
Qed.

Lemma list_active_indexers_strict_witness :
  list_active_indexers [row_at_T] None now_T = Ok [] /\
  (exists l, list_active_indexers [row_at_T; row_no_nonce] None (now_T - 1) = Ok l /\ NoDup l /\
    forall a, In a l <-> exists r z, In r [row_at_T; row_no_nonce] /\ account_of r = Some a /\
                                 row_nonce r = Ok (Some z) /\ now_T - 1 < z) /\
  list_active_indexers [row_new; row_big_nonce] None 0 = Err InvalidBigint.
Proof.
  split; [vm_compute; reflexivity|]. split.
  - apply (proj1 (list_active_indexers_strict [row_at_T; row_no_nonce] (now_T - 1))).
    intros r Hr. simpl in Hr. destruct Hr as [<-|[<-|[]]];
      (split; [eexists; reflexivity|discriminate]).
  - apply (proj2 (list_active_indexers_strict [row_new; row_big_nonce] 0) row_big_nonce (2 ^ 63)).
    + right. left. reflexivity.
    + reflexivity.
    + unfold i64_max. lia.
Defined.

(** With a non-empty allow-list the query returns the unfiltered result
    restricted to the allow-list. *)
Lemma list_active_indexers_filter_intersection rs idxs ts :
  idxs <> [] -> (forall r, In r rs -> row_wf r) ->
  exists l l0, list_active_indexers rs (Some idxs) ts = Ok l /\
               list_active_indexers rs None ts = Ok l0 /\
               forall a, In a l <-> In a l0 /\ In a idxs.
Proof.
  intros Hne Hwf.
  destruct (list_active_indexers_members rs (Some idxs) ts Hwf ltac:(congruence))
    as [l [Hl [_ Hin]]].
  destruct (list_active_indexers_members rs None ts Hwf ltac:(discriminate))
    as [l0 [Hl0 [_ Hin0]]].
  exists l, l0. split; [exact Hl|]. split; [exact Hl0|].
  intros a. rewrite Hin, Hin0, <- allowed_some_iff. split.
  - intros [r [Hr [Ha [Hn Hal]]]]. split; [|exact Hal]. exists r. tauto.
  - intros [[r [Hr [Ha [Hn _]]]] Hal]. exists r. tauto.
Qed.

(** C8 (code bug): an empty allow-list [Some []] produces the text
    [... IN ()], which PostgreSQL does not parse: the query fails where the
    intersection with the empty set is the empty list. *)
Lemma list_active_indexers_empty_filter :
  list_active_indexers [row_new] (Some []) 0 = Err SyntaxError /\
  list_active_indexers [row_new] None 0 = Ok ["0xbb"%string].
Proof. split; vm_compute; reflexivity. Qed.

(* ================================================================== *)
(** * [get_indexer_stats] *)

Lemma where_all_active_castable ts indexers rs sel :
  where_all (active_where ts (bind_params ts indexers) (in_clause indexers)) rs = Ok sel ->
  forall r, In r rs -> exists v, row_nonce r = Ok v.
Proof.
  intros Ew r Hr. destruct (where_all_ok_inv _ _ _ Ew r Hr) as [b Hb].
  unfold active_where in Hb. destruct (row_nonce r) as [v|e]; [eauto|discriminate].
Qed.

(** C5: every sender in the result has [message_count] equal to the number
    of its rows with nonce after [from_ts] and [subgraphs_count] equal to the
    number of distinct identifiers among them; when those rows share one
    identifier, [subgraphs_count = 1]. *)
Theorem get_indexer_stats_counts rs indexers from_ts stats :
  get_indexer_stats rs indexers from_ts = Ok stats ->
  forall s, In s stats ->
    let own := sender_rows rs (graph_account s) from_ts in
    own <> [] /\
    message_count s = Z.of_nat (List.length own) /\
    subgraphs_count s = Z.of_nat (List.length (distinct String.eqb (identifiers own))) /\
    (forall i, (forall r, In r own -> m_identifier (message r) = Some i) ->
               subgraphs_count s = 1).
Proof.
  intros H s Hs. unfold get_indexer_stats in H. cbv zeta in H.
  destruct (sql_parses (in_clause indexers)); cbn [negb] in H; [|discriminate].
  destruct (where_all _ rs) as [sel|e] eqn:Ew; cbn [bind] in H; [|discriminate].
  pose proof (where_all_ok_eq _ _ _ Ew) as Hsel.
  pose proof (where_all_active_castable _ _ _ _ Ew) as Hcast.
  destruct (map_result_In _ _ _ _ H Hs) as [[a|] [Hg Hsg]]; [|discriminate].
  cbn in Hsg. inversion Hsg as [Hs']. clear Hsg. subst s.
  cbn [graph_account message_count subgraphs_count].
  rewrite (In_distinct _ opt_str_eqb_spec), in_map_iff in Hg.
  destruct Hg as [r0 [Ha0 Hr0]].
  assert (Hr0' := Hr0). rewrite Hsel, filter_In in Hr0'. destruct Hr0' as [Hr0rs Hb0].
  destruct (Hcast r0 Hr0rs) as [v0 Hv0].
  rewrite (active_where_value _ _ _ _ Hv0) in Hb0. cbn in Hb0.
  apply andb_true_iff in Hb0 as [Hn0 Hal]. rewrite Ha0 in Hal.
  assert (Hgrp : group_rows sel (Some a) = sender_rows rs a from_ts).
  { rewrite Hsel. unfold group_rows, sender_rows. rewrite filter_filter_and.
    apply filter_ext_in. intros r Hr. destruct (Hcast r Hr) as [v Hv].
    rewrite (active_where_value _ _ _ _ Hv). cbn [ok_or_false].
    destruct (opt_str_eqb (account_of r) (Some a)) eqn:E; [|reflexivity].
    apply opt_str_eqb_spec in E. rewrite E, Hal, andb_true_r. reflexivity. }
  rewrite Hgrp.
  assert (Hin0 : In r0 (sender_rows rs a from_ts)).
  { unfold sender_rows. apply filter_In. split; [exact Hr0rs|].
    rewrite Ha0, Hn0. simpl. now rewrite String.eqb_refl. }
  split; [|split; [reflexivity|split; [reflexivity|]]].
  - intros E. rewrite E in Hin0. contradiction.
  - intros i Hi. rewrite (distinct_const _ String.eqb_eq _ i); [reflexivity| |].
    + intros E. assert (Hx : In i (identifiers (sender_rows rs a from_ts))).
      { unfold identifiers. rewrite In_somes, in_map_iff. exists r0. auto. }
      unfold identifiers in Hx. rewrite E in Hx. contradiction.
    + intros x Hx. unfold identifiers in Hx. rewrite In_somes, in_map_iff in Hx.
      destruct Hx as [r [Er Hr]]. rewrite (Hi r Hr) in Er. congruence.
Qed.

Lemma get_indexer_stats_counts_witness :
  get_indexer_stats rows_scenario3 (Some ["0xaa50"; "0xaa51"]%string) 1707328516
  = Ok [{| graph_account := "0xaa50"; message_count := 2; subgraphs_count := 1 |};
        {| graph_account := "0xaa51"; message_count := 1; subgraphs_count := 1 |}] /\
  message_count {| graph_account := "0xaa50"; message_count := 2; subgraphs_count := 1 |}
  = Z.of_nat (List.length (sender_rows rows_scenario3 "0xaa50" 1707328516)).
Proof.
  assert (H : get_indexer_stats rows_scenario3 (Some ["0xaa50"; "0xaa51"]%string) 1707328516
              = Ok [{| graph_account := "0xaa50"; message_count := 2; subgraphs_count := 1 |};
                    {| graph_account := "0xaa51"; message_count := 1; subgraphs_count := 1 |}])
    by (vm_compute; reflexivity).
  split; [exact H|].
  exact (proj1 (proj2 (get_indexer_stats_counts _ _ _ _ H _ (or_introl eq_refl)))).
Defined.

(* ================================================================== *)
(** * The decoder fan-in [process_message] *)

(** C3: [process_message] tries [PublicPoiMessage], then
    [UpgradeIntentMessage], then [SimpleMessage], and stores the first
    envelope that decodes, whatever the later decoders would give; when none
    decodes it fails with the unsupported error and the table is unchanged. *)
Theorem process_message_first_success {bytes} (dec : Decoders bytes) (d : db) (b : bytes) :
  (forall g, decode_poi dec b = Some g ->
     process_message dec d b = add_message d (json_of_envelope JPoi g)) /\
  (forall g, decode_poi dec b = None -> decode_upgrade dec b = Some g ->
     process_message dec d b = add_message d (json_of_envelope JUpgrade g)) /\
  (forall g, decode_poi dec b = None -> decode_upgrade dec b = None ->
     decode_simple dec b = Some g ->
     process_message dec d b = add_message d (json_of_envelope JSimple g)) /\
  (decode_poi dec b = None -> decode_upgrade dec b = None -> decode_simple dec b = None ->
     process_message dec d b = (d, Err Unsupported)).
Proof.
  unfold process_message.
  split; [intros g Hp; now rewrite Hp|].
  split; [intros g Hp Hu; now rewrite Hp, Hu|].
  split; [intros g Hp Hu Hs; now rewrite Hp, Hu, Hs|].
  intros Hp Hu Hs. now rewrite Hp, Hu, Hs.
Qed.

Lemma process_message_first_success_witness :
  process_message sample_decoders empty_db 0%nat = add_message empty_db (json_of_envelope JPoi poi_env) /\
  process_message sample_decoders empty_db 1%nat = add_message empty_db (json_of_envelope JUpgrade upgrade_env) /\
  process_message sample_decoders empty_db 2%nat = add_message empty_db (json_of_envelope JSimple simple_env) /\
  process_message sample_decoders empty_db 3%nat = (empty_db, Err Unsupported).
Proof.
  split; [apply (proj1 (process_message_first_success sample_decoders empty_db 0%nat)); reflexivity|].
  split; [apply (proj1 (proj2 (process_message_first_success sample_decoders empty_db 1%nat)));
          reflexivity|].
  split; [apply (proj1 (proj2 (proj2 (process_message_first_success sample_decoders empty_db 2%nat))));
          reflexivity|].
  apply (proj2 (proj2 (proj2 (process_message_first_success sample_decoders empty_db 3%nat))));
    reflexivity.
Defined.

(* ================================================================== *)
(** * [valid_outer] and the decode check *)

Lemma decode_checked_some {bytes T} `{RadioPayload T}
  (parse : bytes -> option (GraphcastMessage T)) b g :
  decode_checked parse b = Some g <->
  parse b = Some g /\ exists a, valid_outer (gm_payload g) g = Valid a.
Proof.
  unfold decode_checked. destruct (parse b) as [g'|].
  - destruct (valid_outer (gm_payload g') g') as [a|e] eqn:E; split.
    + intros Hg. injection Hg as <-. eauto.
    + intros [Hg _]. congruence.
    + discriminate.
    + intros [Hg [a Ha]]. injection Hg as <-. congruence.
  - split; [discriminate|]. intros [Hg _]. discriminate.
Qed.

Lemma andb3_true_iff (a b c : bool) : a && b && c = true <-> a = true /\ b = true /\ c = true.
Proof. destruct a, b, c; simpl; intuition congruence. Qed.

(** C9: each [valid_outer] returns [Ok self] exactly when the fields the
    payload shares with the envelope are equal, and [InvalidFields]
    otherwise; an envelope failing the check is not returned by decode. *)
Theorem valid_outer_fields :
  (forall (self : PublicPoiMessage) outer,
     (valid_outer self outer = Valid self /\
      (poi_nonce self = gm_nonce outer /\ poi_graph_account self = gm_graph_account outer /\
       poi_identifier self = gm_identifier outer)) \/
     (valid_outer self outer = Invalid InvalidFields /\
      ~ (poi_nonce self = gm_nonce outer /\ poi_graph_account self = gm_graph_account outer /\
         poi_identifier self = gm_identifier outer))) /\
  (forall (self : UpgradeIntentMessage) outer,
     (valid_outer self outer = Valid self /\
      (ui_nonce self = gm_nonce outer /\ ui_graph_account self = gm_graph_account outer)) \/
     (valid_outer self outer = Invalid InvalidFields /\
      ~ (ui_nonce self = gm_nonce outer /\ ui_graph_account self = gm_graph_account outer))) /\
  (forall (self : SimpleMessage) outer,
     (valid_outer self outer = Valid self /\ sm_identifier self = gm_identifier outer) \/
     (valid_outer self outer = Invalid InvalidFields /\ sm_identifier self <> gm_identifier outer)) /\
  (forall {bytes} (parse : bytes -> option (GraphcastMessage PublicPoiMessage)) b g,
     decode_checked parse b = Some g <->
     parse b = Some g /\
     (poi_nonce (gm_payload g) = gm_nonce g /\
      poi_graph_account (gm_payload g) = gm_graph_account g /\
      poi_identifier (gm_payload g) = gm_identifier g)) /\
  (forall {bytes} (parse : bytes -> option (GraphcastMessage UpgradeIntentMessage)) b g,
     decode_checked parse b = Some g <->
     parse b = Some g /\
     (ui_nonce (gm_payload g) = gm_nonce g /\
      ui_graph_account (gm_payload g) = gm_graph_account g)) /\
  (forall {bytes} (parse : bytes -> option (GraphcastMessage SimpleMessage)) b g,
     decode_checked parse b = Some g <->
     parse b = Some g /\ sm_identifier (gm_payload g) = gm_identifier g).
Proof.
  assert (Hpoi : forall (self : PublicPoiMessage) outer,
     (valid_outer self outer = Valid self /\
      (poi_nonce self = gm_nonce outer /\ poi_graph_account self = gm_graph_account outer /\
       poi_identifier self = gm_identifier outer)) \/
     (valid_outer self outer = Invalid InvalidFields /\
      ~ (poi_nonce self = gm_nonce outer /\ poi_graph_account self = gm_graph_account outer /\
         poi_identifier self = gm_identifier outer))).
  { intros self outer. cbn [valid_outer PublicPoiMessage_RadioPayload].
    destruct (_ && _ && _) eqn:E; [left|right]; split; try reflexivity.
    - apply andb3_true_iff in E as (E1 & E2 & E3).
      apply Z.eqb_eq in E1. apply String.eqb_eq in E2, E3. auto.
    - intros (E1 & E2 & E3). apply Z.eqb_eq in E1. apply String.eqb_eq in E2, E3.
      rewrite E1, E2, E3 in E. discriminate. }
  assert (Hui : forall (self : UpgradeIntentMessage) outer,
     (valid_outer self outer = Valid self /\
      (ui_nonce self = gm_nonce outer /\ ui_graph_account self = gm_graph_account outer)) \/
     (valid_outer self outer = Invalid InvalidFields /\
      ~ (ui_nonce self = gm_nonce outer /\ ui_graph_account self = gm_graph_account outer))).
  { intros self outer. cbn [valid_outer UpgradeIntentMessage_RadioPayload].
    destruct (_ && _) eqn:E; [left|right]; split; try reflexivity.
    - apply andb_true_iff in E as [E1 E2].
      apply Z.eqb_eq in E1. apply String.eqb_eq in E2. auto.
    - intros (E1 & E2). apply Z.eqb_eq in E1. apply String.eqb_eq in E2.
      rewrite E1, E2 in E. discriminate. }
  assert (Hsm : forall (self : SimpleMessage) outer,
     (valid_outer self outer = Valid self /\ sm_identifier self = gm_identifier outer) \/
     (valid_outer self outer = Invalid InvalidFields /\ sm_identifier self <> gm_identifier outer)).
  { intros self outer. cbn [valid_outer SimpleMessage_RadioPayload].
    destruct (String.eqb _ _) eqn:E; [left|right]; split; try reflexivity.
    - now apply String.eqb_eq.
    - intros E1. apply String.eqb_eq in E1. congruence. }
  split; [exact Hpoi|]. split; [exact Hui|]. split; [exact Hsm|].
  split; [|split]; intros bytes parse b g; rewrite decode_checked_some;
    apply and_iff_compat_l; split.
  - intros [a Ha]. destruct (Hpoi (gm_payload g) g) as [[_ Hc]|[Hi _]]; congruence.
  - intros Hc. destruct (Hpoi (gm_payload g) g) as [[Hv _]|[_ Hn]]; [eauto|contradiction].
  - intros [a Ha]. destruct (Hui (gm_payload g) g) as [[_ Hc]|[Hi _]]; congruence.
  - intros Hc. destruct (Hui (gm_payload g) g) as [[Hv _]|[_ Hn]]; [eauto|contradiction].
  - intros [a Ha]. destruct (Hsm (gm_payload g) g) as [[_ Hc]|[Hi _]]; congruence.
  - intros Hc. destruct (Hsm (gm_payload g) g) as [[Hv _]|[_ Hn]]; [eauto|contradiction].
Qed.

(* ================================================================== *)
(** * The summary tick *)

(** C6: in the summary tick, a timeout of [count_messages] ends the loop
    through the [expect] on the timeout result, whatever the two pruning
    calls gave; the timeouts of the two pruning calls are logged at debug
    level and the tick goes on to count the messages. *)
Theorem summary_tick_count_timeout_panics :
  (forall max_storage retain_res prune_res,
     fst (fst (summary_tick max_storage retain_res prune_res Elapsed)) = Panicked) /\
  summary_tick (Some 100) Elapsed Elapsed (Completed (Ok 7)) =
  (Continue, 0,
   [{| lvl := Debug; text := "Pruning by max storage timed out" |};
    {| lvl := Debug; text := "Pruning by retention timed out" |};
    {| lvl := Info; text := "Monitoring summary" |}]).
Proof.
  split; [|reflexivity].
  intros [m|] retain_res prune_res; unfold summary_tick;
    [destruct retain_res as [[x|e]|]|]; destruct prune_res as [[y|e']|]; reflexivity.
Qed.

(* ================================================================== *)
(** * The watchdog of [RadioOperator::run] *)




(* ================================================================== *)
(** * A nonce beyond [i64::MAX] in [list_active_indexers] *)

(** C4, counterexample: a stored [u64] nonce of [2^63] does not cast to
    [BIGINT], so the unfiltered query fails instead of returning the
    accounts of the two rows, both of whose nonces are after the cutoff. *)
Lemma list_active_indexers_big_nonce_fails :
  list_active_indexers [row_big_nonce; row_new] None 0 = Err InvalidBigint /\
  list_active_indexers [row_new] None 0 = Ok ["0xbb"%string].
Proof. split; vm_compute; reflexivity. Qed.

(* ================================================================== *)
(** * Inserting, reading and deleting messages by id *)

Lemma filter_id_none rs i :
  (forall r, In r rs -> id r <> i) -> filter (fun x => id x =? i) rs = [].
Proof.
  induction rs as [|r rs IH]; intros H; simpl; [reflexivity|].
  replace (id r =? i) with false by (symmetry; apply Z.eqb_neq; apply H; left; reflexivity).
  apply IH. intros r' Hr'. apply H. right. exact Hr'.
Qed.

Lemma filter_id_unique rs r :
  ids_unique rs -> In r rs -> filter (fun x => id x =? id r) rs = [r].
Proof.
  unfold ids_unique. induction rs as [|a rs IH]; intros Hu Hr; [contradiction|].
  simpl in Hu. inversion Hu as [|? ? Hnin Hnd]; subst.
  destruct Hr as [<-|Hr]; simpl.
  - rewrite Z.eqb_refl. f_equal. apply filter_id_none.
    intros r' Hr' E. apply Hnin. rewrite <- E. now apply in_map.
  - replace (id a =? id r) with false.
    + now apply IH.
    + symmetry. apply Z.eqb_neq. intros E. apply Hnin. rewrite E. now apply in_map.
Qed.

Section DecodeRows.
Context {T : Type} (dec : Message -> option T).

Lemma decode_rows_ids rs l : decode_rows dec rs = Fetched l -> map row_id l = map id rs.
Proof.
  revert l. induction rs as [|r rs IH]; intros l H; simpl in H.
  - now injection H as <-.
  - unfold decode_row in H. destruct (dec (message r)) as [t|]; [|discriminate].
    destruct (decode_rows dec rs) as [xs|e] eqn:E; [|discriminate].
    injection H as <-. simpl. f_equal. now apply IH.
Qed.

Lemma decode_rows_all_ok rs :
  (forall r, In r rs -> dec (message r) <> None) -> exists l, decode_rows dec rs = Fetched l.
Proof.
  induction rs as [|r rs IH]; intros H; simpl; [eauto|].
  unfold decode_row. destruct (dec (message r)) as [t|] eqn:E.
  - destruct IH as [l Hl]; [intros r' Hr'; apply H; now right|]. rewrite Hl. eauto.
  - exfalso. apply (H r); [now left|exact E].
Qed.

Lemma decode_rows_fail rs :
  (exists r, In r rs /\ dec (message r) = None) -> decode_rows dec rs = FetchErr DecodeFailed.
Proof.
  induction rs as [|r rs IH]; intros [r' [Hr' Hd]]; [contradiction|]. simpl.
  unfold decode_row at 1. destruct Hr' as [<-|Hr'].
  - now rewrite Hd.
  - destruct (dec (message r)); [|reflexivity]. rewrite IH; eauto.
Qed.
End DecodeRows.

Lemma insert_asc_sorted r l :
  Sorted (fun a b => id a <= id b) l -> Sorted (fun a b => id a <= id b) (insert_by Z.leb r l).
Proof.
  induction l as [|x l IH]; intros H; simpl.
  - repeat constructor.
  - destruct (id r <=? id x) eqn:E.
    + apply Z.leb_le in E. constructor; [exact H|]. constructor. exact E.
    + apply Z.leb_gt in E. inversion H as [|? ? Hs Hd]; subst.
      constructor; [now apply IH|].
      destruct l as [|y l']; simpl.
      * constructor. lia.
      * destruct (id r <=? id y); constructor; [lia|].
        now inversion Hd.
Qed.

Lemma order_by_id_asc_sorted rs : StronglySorted (fun a b => id a <= id b) (order_by_id_asc rs).
Proof.
  apply Sorted_StronglySorted.
  - intros a b c; lia.
  - unfold order_by_id_asc. induction rs as [|r rs IH]; simpl.
    + constructor.
    + now apply insert_asc_sorted.
Qed.

Lemma decode_rows_strictly_sorted {T} (dec : Message -> option T) rs l :
  StronglySorted (fun a b => id a <= id b) rs -> NoDup (map id rs) ->
  decode_rows dec rs = Fetched l -> StronglySorted (fun a b => row_id a < row_id b) l.
Proof.
  revert l. induction rs as [|r rs IH]; intros l Hs Hnd H; simpl in H.
  - injection H as <-. constructor.
  - unfold decode_row in H. destruct (dec (message r)) as [t|]; [|discriminate].
    destruct (decode_rows dec rs) as [xs|e] eqn:E; [|discriminate].
    injection H as <-.
    inversion Hs as [|? ? Hs' Hf]; subst. simpl in Hnd. inversion Hnd as [|? ? Hnin Hnd']; subst.
    constructor; [now apply IH|].
    apply Forall_forall. intros b Hb. cbn [row_id].
    assert (Hb' : In (row_id b) (map id rs)).
    { rewrite <- (decode_rows_ids dec rs xs E). now apply in_map. }
    apply in_map_iff in Hb' as [r' [Er' Hr']].
    rewrite Forall_forall in Hf. specialize (Hf r' Hr').
    assert (id r <> id r') by (intros Ee; apply Hnin; rewrite Ee; now apply in_map).
    lia.
Qed.

(** [delete_message_by_id] removes the row with that id, and only it, even
    when its document does not decode into [T] (the result is then the
    decode error); afterwards [message_by_id] finds no row for the id.  An
    absent id gives [RowNotFound] and leaves the table as it was. *)
Theorem delete_message_by_id_spec {T} (dec : Message -> option T) d i :
  db_wf d ->
  let d' := fst (delete_message_by_id dec d i) in
  let res := snd (delete_message_by_id dec d i) in
  db_wf d' /\ next_id d' = next_id d /\
  message_by_id dec d' i = FetchErr RowNotFound /\
  (forall j, j <> i -> message_by_id dec d' j = message_by_id dec d j) /\
  (forall r, In r (rows d) -> id r = i ->
     res = decode_row dec r /\ count_messages d' = count_messages d - 1) /\
  ((forall r, In r (rows d) -> id r <> i) -> res = FetchErr RowNotFound /\ rows d' = rows d).
Proof.
  intros [Hu Hlt] d' res. subst d' res.
  unfold delete_message_by_id, message_by_id, db_wf, count_messages; cbn [fst snd rows next_id].
  split; [split|].
  { now apply ids_unique_filter. }
  { intros r Hr. apply filter_In in Hr as [Hr _]. now apply Hlt. }
  split; [reflexivity|]. split.
  { rewrite filter_id_none; [reflexivity|].
    intros r Hr. apply filter_In in Hr as [_ Hr]. apply negb_true_iff, Z.eqb_neq in Hr. exact Hr. }
  split.
  { intros j Hj. rewrite filter_filter_and. f_equal. apply filter_ext. intros r.
    destruct (id r =? j) eqn:E; [|reflexivity]. apply Z.eqb_eq in E.
    replace (id r =? i) with false by (symmetry; apply Z.eqb_neq; lia). reflexivity. }
  split.
  { intros r Hr <-. rewrite (filter_id_unique _ _ Hu Hr). split; [reflexivity|].
    pose proof (length_filter_split (fun x => id x =? id r) (rows d)) as Hs.
    rewrite (filter_id_unique _ _ Hu Hr) in Hs. simpl in Hs. lia. }
  intros Hn. rewrite filter_id_none by exact Hn. split; [reflexivity|].
  apply filter_all_true. intros r Hr. apply negb_true_iff, Z.eqb_neq. now apply Hn.
Qed.

Lemma delete_message_by_id_spec_witness :
  db_wf sample_db /\
  snd (delete_message_by_id (fun m => Some m) sample_db 3)
  = Fetched {| row_id := 3; row_message := message row_new |} /\
  message_by_id (fun m => Some m) (fst (delete_message_by_id (fun m => Some m) sample_db 3)) 3
  = FetchErr RowNotFound.
Proof.
  assert (Hwf : db_wf sample_db).
  { split; [unfold ids_unique; simpl; repeat constructor; simpl; lia|].
    intros r Hr. simpl in Hr. destruct Hr as [<-|[<-|[]]]; simpl; lia. }
  pose proof (delete_message_by_id_spec (fun m => Some m) sample_db 3 Hwf)
    as [_ [_ [Hget [_ [Hdel _]]]]].
  split; [exact Hwf|]. split; [|exact Hget].
  exact (proj1 (Hdel row_new (or_intror (or_introl eq_refl)) eq_refl)).
Defined.

(** [list_messages] (and [list_rows], which runs the same statement)
    returns the rows in strictly increasing id order, each stored row
    exactly once, when every document decodes into [T], and the decode
    error as soon as one does not. *)
Theorem list_messages_ordered {T} (dec : Message -> option T) d :
  ids_unique (rows d) ->
  (forall l, list_messages dec d = Fetched l ->
     StronglySorted (fun a b => row_id a < row_id b) l /\
     Permutation (map row_id l) (map id (rows d))) /\
  ((forall r, In r (rows d) -> dec (message r) <> None) ->
     exists l, list_messages dec d = Fetched l) /\
  ((exists r, In r (rows d) /\ dec (message r) = None) ->
     list_messages dec d = FetchErr DecodeFailed).
Proof.
  intros Hu. unfold list_messages.
  assert (Hp : Permutation (order_by_id_asc (rows d)) (rows d)) by apply sort_by_perm.
  split; [|split].
  - intros l Hl. split.
    + apply (decode_rows_strictly_sorted dec (order_by_id_asc (rows d)));
        [apply order_by_id_asc_sorted| |exact Hl].
      apply (Permutation_NoDup (Permutation_map id (Permutation_sym Hp))). exact Hu.
    + rewrite (decode_rows_ids dec _ _ Hl). now apply Permutation_map.
  - intros H. apply decode_rows_all_ok. intros r Hr. apply H.
    now apply (Permutation_in _ Hp).
  - intros [r [Hr Hd]]. apply decode_rows_fail. exists r. split; [|exact Hd].
    now apply (Permutation_in _ (Permutation_sym Hp)).
Qed.

Lemma list_messages_ordered_witness :
  list_messages (fun m => Some m) {| rows := [row_new; row_old]; next_id := 4 |}
  = Fetched [{| row_id := 2; row_message := message row_old |};
             {| row_id := 3; row_message := message row_new |}] /\
  StronglySorted (fun a b => row_id a < row_id b)
    [{| row_id := 2; row_message := message row_old |};
     {| row_id := 3; row_message := message row_new |}].
Proof.
  assert (Hu : ids_unique (rows {| rows := [row_new; row_old]; next_id := 4 |}))
    by (unfold ids_unique; simpl; repeat constructor; simpl; lia).
  assert (Hl : list_messages (fun m => Some m) {| rows := [row_new; row_old]; next_id := 4 |}
               = Fetched [{| row_id := 2; row_message := message row_old |};
                          {| row_id := 3; row_message := message row_new |}])
    by (vm_compute; reflexivity).
  split; [exact Hl|].
  exact (proj1 (proj1 (list_messages_ordered (fun m => Some m) _ Hu) _ Hl)).
Defined.

(* ================================================================== *)
(** * Repeated pruning, and the configured storage cap *)

Lemma filter_length_eq {A} (f : A -> bool) (l : list A) :
  List.length (filter f l) = List.length l -> filter f l = l.
Proof.
  induction l as [|x l IH]; simpl; intros H; [reflexivity|].
  destruct (f x).
  - simpl in H. f_equal. apply IH. lia.
  - pose proof (filter_length_le f l). lia.
Qed.

Lemma retain_max_storage_fst rs n :
  0 <= n <= i64_max ->
  fst (retain_max_storage rs n)
  = filter (fun r => mem_id (id r) (map id (firstn (Z.to_nat n) (order_by_id_desc rs)))) rs.
Proof.
  intros Hn. unfold retain_max_storage, u64_as_i64.
  replace (n <=? i64_max) with true by (symmetry; apply Z.leb_le; lia).
  replace (n <? 0) with false by (symmetry; apply Z.ltb_ge; lia). reflexivity.
Qed.

(** Applying [retain_max_storage n] (for [n <= i64::MAX]) to a table that
    already went through it deletes nothing: the first call leaves
    [min(n, count)] rows, the second returns [Ok 0] and the same table. *)
Theorem retain_max_storage_idempotent rs n :
  0 <= n <= i64_max -> ids_unique rs ->
  exists rs' k,
    retain_max_storage rs n = (rs', Ok k) /\
    List.length rs' = Nat.min (Z.to_nat n) (List.length rs) /\
    retain_max_storage rs' n = (rs', Ok 0).
Proof.
  intros Hn Hu.
  destruct (retain_max_storage_keeps_newest rs n Hn Hu) as [rs' [Hr [Hlen _]]].
  exists rs', (Z.of_nat (List.length rs - List.length rs')).
  split; [exact Hr|]. split; [exact Hlen|].
  assert (Hu' : ids_unique rs').
  { replace rs' with (fst (retain_max_storage rs n)) by (now rewrite Hr).
    rewrite retain_max_storage_fst by exact Hn. now apply ids_unique_filter. }
  destruct (retain_max_storage_keeps_newest rs' n Hn Hu') as [rs'' [Hr' [Hlen' _]]].
  assert (Hrs'' : rs'' = rs').
  { replace rs'' with (fst (retain_max_storage rs' n)) by (now rewrite Hr').
    rewrite retain_max_storage_fst by exact Hn. apply filter_length_eq.
    replace (filter _ rs') with (fst (retain_max_storage rs' n))
      by (now rewrite retain_max_storage_fst).
    rewrite Hr'. cbn [fst]. rewrite Hlen'. lia. }
  subst rs''. rewrite Hr'. now rewrite Nat.sub_diag.
Qed.

Lemma retain_max_storage_idempotent_witness :
  exists rs' k,
    retain_max_storage [row_old; row_new] 1 = (rs', Ok k) /\
    List.length rs' = Nat.min (Z.to_nat 1) (List.length [row_old; row_new]) /\
    retain_max_storage rs' 1 = (rs', Ok 0).
Proof.
  apply retain_max_storage_idempotent.
  - unfold i64_max. lia.
  - unfold ids_unique. simpl. repeat constructor; simpl; lia.
Defined.

(** Two back-to-back [prune_old_messages] calls within the same second (same
    cutoff), on a table whose nonces all cast and with a positive batch:
    the second call deletes nothing and leaves the table unchanged. *)
Theorem prune_old_messages_idempotent now rs retention batch_size :
  1 <= batch_size -> ids_unique rs -> (forall r, In r rs -> nonce_castable r) ->
  exists fuel rs' k,
    prune_old_messages fuel now rs retention batch_size = Some (rs', Ok k) /\
    prune_old_messages 1 now rs' retention batch_size = Some (rs', Ok 0).
Proof.
  intros Hb Hu Hc. unfold prune_old_messages.
  set (c := now - retention * 60).
  set (rs' := filter (fun r => negb (eligible c r)) rs).
  exists (S (List.length (filter (eligible c) rs))), rs',
    (0 + Z.of_nat (List.length (filter (eligible c) rs))).
  split; [apply prune_loop_spec; auto|].
  assert (Hnone : filter (eligible c) rs' = []).
  { assert (Hgen : forall l, filter (eligible c) (filter (fun r => negb (eligible c r)) l) = []).
    { induction l as [|r l IH]; simpl; [reflexivity|].
      destruct (eligible c r) eqn:E; simpl; [exact IH|rewrite E; exact IH]. }
    apply Hgen. }
  assert (Hu' : ids_unique rs') by now apply ids_unique_filter.
  assert (Hc' : forall r, In r rs' -> nonce_castable r).
  { intros r Hr. apply filter_In in Hr as [Hr _]. now apply Hc. }
  rewrite (prune_loop_spec 1 rs' c batch_size 0 Hb Hu' Hc') by (rewrite Hnone; simpl; lia).
  rewrite Hnone. simpl. f_equal.
  apply pair_equal_spec. split; [|reflexivity].
  apply filter_all_true. intros r Hr. apply negb_true_iff.
  destruct (eligible c r) eqn:E; [|reflexivity].
  assert (In r (filter (eligible c) rs')) by (apply filter_In; auto).
  rewrite Hnone in H. contradiction.
Qed.

Lemma prune_old_messages_idempotent_witness :
  exists fuel rs' k,
    prune_old_messages fuel now_T [row_old; row_new] 5 1000 = Some (rs', Ok k) /\
    prune_old_messages 1 now_T rs' 5 1000 = Some (rs', Ok 0).
Proof.
  apply prune_old_messages_idempotent.
  - lia.
  - unfold ids_unique. simpl. repeat constructor; simpl; lia.
  - intros r Hr. simpl in Hr. destruct Hr as [<-|[<-|[]]]; eexists; reflexivity.
Defined.

(** The cap as the summary tick passes it, [max_storage as usize] from the
    [Option<i32>] of the configuration: a negative configured value makes
    every [retain_max_storage] call fail without deleting anything, while a
    value [m >= 0] keeps the [min(m, count)] newest rows. *)
Theorem retain_max_storage_from_config rs m :
  (i32_min <= m < 0 -> retain_max_storage rs (i32_as_usize m) = (rs, Err LimitNegative)) /\
  (0 <= m <= i32_max -> ids_unique rs ->
     exists rs',
       retain_max_storage rs (i32_as_usize m)
         = (rs', Ok (Z.of_nat (List.length rs - List.length rs'))) /\
       List.length rs' = Nat.min (Z.to_nat m) (List.length rs) /\
       (forall r r', In r rs' -> In r' rs -> ~ In r' rs' -> id r' < id r)).
Proof.
  split.
  - intros Hm. unfold i32_min in Hm. unfold retain_max_storage, i32_as_usize, u64_as_i64, i64_max.
    replace (m <? 0) with true by (symmetry; apply Z.ltb_lt; lia).
    replace (m + 2 ^ 64 <=? 2 ^ 63 - 1) with false by (symmetry; apply Z.leb_gt; lia).
    replace (m + 2 ^ 64 - 2 ^ 64 <? 0) with true by (symmetry; apply Z.ltb_lt; lia).
    reflexivity.
  - intros Hm Hu. unfold i32_max in Hm. unfold i32_as_usize.
    replace (m <? 0) with false by (symmetry; apply Z.ltb_ge; lia).
    destruct (retain_max_storage_keeps_newest rs m ltac:(unfold i64_max; lia) Hu)
      as [rs' [Hr [Hlen [_ Hnew]]]].
    exists rs'. auto.
Qed.

Lemma retain_max_storage_from_config_witness :
  retain_max_storage [row_old; row_new] (i32_as_usize (-1)) = ([row_old; row_new], Err LimitNegative) /\
  exists rs',
    retain_max_storage [row_old; row_new] (i32_as_usize 1)
      = (rs', Ok (Z.of_nat (List.length [row_old; row_new] - List.length rs'))) /\
    List.length rs' = Nat.min (Z.to_nat 1) (List.length [row_old; row_new]) /\
    (forall r r', In r rs' -> In r' [row_old; row_new] -> ~ In r' rs' -> id r' < id r).
Proof.
  split.
  - apply (proj1 (retain_max_storage_from_config [row_old; row_new] (-1))).
    unfold i32_min. lia.
  - apply (proj2 (retain_max_storage_from_config [row_old; row_new] 1)).
    + unfold i32_max. lia.
    + unfold ids_unique. simpl. repeat constructor; simpl; lia.
Defined.

(* ================================================================== *)
(** * The two sender queries together *)

Lemma get_strings_ok l l' : get_strings l = Ok l' -> l' = somes l.
Proof.
  revert l'. induction l as [|[x|] l IH]; simpl; intros l' H.
  - now injection H as <-.
  - destruct (get_strings l) as [t|e] eqn:E; cbn in H; [|discriminate].
    injection H as <-. f_equal. now apply IH.
  - discriminate.
Qed.

Lemma stats_of_keys sel keys stats :
  map_result (stats_of_group sel) keys = Ok stats ->
  get_strings keys = Ok (map graph_account stats) /\
  map message_count stats = map (fun k => Z.of_nat (List.length (group_rows sel k))) keys.
Proof.
  revert stats. induction keys as [|[a|] keys IH]; simpl; intros stats H.
  - injection H as <-. auto.
  - destruct (map_result (stats_of_group sel) keys) as [st|e] eqn:E; cbn in H; [|discriminate].
    injection H as <-. destruct (IH st eq_refl) as [H1 H2].
    rewrite H1. cbn. now rewrite H2.
  - discriminate.
Qed.

Lemma keys_stats sel keys l :
  get_strings keys = Ok l ->
  exists stats, map_result (stats_of_group sel) keys = Ok stats /\ map graph_account stats = l.
Proof.
  revert l. induction keys as [|[a|] keys IH]; simpl; intros l H.
  - injection H as <-. exists []. auto.
  - destruct (get_strings keys) as [t|e] eqn:E; cbn in H; [|discriminate].
    injection H as <-. destruct (IH t eq_refl) as [st [H1 H2]].
    eexists. rewrite H1. cbn. split; [reflexivity|]. simpl. now rewrite H2.
  - discriminate.
Qed.

(** For every allow-list and cutoff, [list_active_indexers] succeeds
    exactly when [get_indexer_stats] does, and then returns the accounts of
    the stats, each once, in some order (neither query has an ORDER BY). *)
Theorem list_active_indexers_agrees_with_stats rs indexers from_ts :
  (forall stats, get_indexer_stats rs indexers from_ts = Ok stats ->
     exists l, list_active_indexers rs indexers from_ts = Ok l /\
               Permutation l (map graph_account stats)) /\
  (forall l, list_active_indexers rs indexers from_ts = Ok l ->
     exists stats, get_indexer_stats rs indexers from_ts = Ok stats /\
                   Permutation l (map graph_account stats)).
Proof.
  unfold list_active_indexers, get_indexer_stats. cbv zeta.
  destruct (negb (sql_parses (in_clause indexers))); [split; intros; discriminate|].
  destruct (where_all _ rs) as [sel|e]; cbn [bind]; [|split; intros; discriminate].
  split.
  - intros stats H. eexists. split; [exact (proj1 (stats_of_keys _ _ _ H))|reflexivity].
  - intros l H. destruct (keys_stats sel _ _ H) as [stats [Hs <-]].
    exists stats. split; [exact Hs|reflexivity].
Qed.

(** No account is returned twice, neither by [list_active_indexers] nor in
    the stats of [get_indexer_stats]. *)
Theorem active_accounts_distinct rs indexers from_ts :
  (forall l, list_active_indexers rs indexers from_ts = Ok l -> NoDup l) /\
  (forall stats, get_indexer_stats rs indexers from_ts = Ok stats ->
     NoDup (map graph_account stats)).
Proof.
  unfold list_active_indexers, get_indexer_stats. cbv zeta.
  destruct (negb (sql_parses (in_clause indexers))); [split; intros; discriminate|].
  destruct (where_all _ rs) as [sel|e]; cbn [bind]; [|split; intros; discriminate].
  assert (Hnd : forall l, get_strings (distinct opt_str_eqb (map account_of sel)) = Ok l -> NoDup l).
  { intros l H. rewrite (get_strings_ok _ _ H). apply NoDup_somes.
    apply (NoDup_distinct _ opt_str_eqb_spec). }
  split; [exact Hnd|].
  intros stats H. apply Hnd. exact (proj1 (stats_of_keys _ _ _ H)).
Qed.

Section GroupCount.
Context {A K : Type} (eqb : K -> K -> bool).
Hypothesis eqb_spec : forall x y, eqb x y = true <-> x = y.
Context (key : A -> K).

Lemma sum_map_add (f g : K -> nat) (D : list K) :
  fold_right Nat.add 0%nat (map (fun k => (f k + g k)%nat) D)
  = (fold_right Nat.add 0%nat (map f D) + fold_right Nat.add 0%nat (map g D))%nat.
Proof. induction D as [|k D IH]; simpl; lia. Qed.

Lemma sum_indicator_absent y (D : list K) :
  ~ In y D -> fold_right Nat.add 0%nat (map (fun k => if eqb y k then 1%nat else 0%nat) D) = 0%nat.
Proof.
  induction D as [|k D IH]; simpl; intros Hn; [reflexivity|].
  destruct (eqb y k) eqn:E.
  - apply eqb_spec in E. subst. exfalso. apply Hn. now left.
  - apply IH. tauto.
Qed.

Lemma sum_indicator_once y (D : list K) :
  NoDup D -> In y D -> fold_right Nat.add 0%nat (map (fun k => if eqb y k then 1%nat else 0%nat) D) = 1%nat.
Proof.
  induction D as [|k D IH]; simpl; intros Hnd Hy; [contradiction|].
  inversion Hnd as [|? ? Hnin Hnd']; subst.
  destruct (eqb y k) eqn:E.
  - apply eqb_spec in E. subst. now rewrite sum_indicator_absent.
  - destruct Hy as [->|Hy].
    + assert (eqb y y = true) by now apply eqb_spec. congruence.
    + now rewrite IH.
Qed.

Lemma group_size_zero x l : existsb (eqb (key x)) (map key l) = false -> group_size eqb key l (key x) = 0%nat.
Proof.
  unfold group_size. induction l as [|y l IH]; simpl; intros H; [reflexivity|].
  apply orb_false_iff in H as [H1 H2].
  destruct (eqb (key y) (key x)) eqn:E.
  - apply eqb_spec in E. rewrite E in H1. assert (eqb (key x) (key x) = true) by now apply eqb_spec.
    congruence.
  - now apply IH.
Qed.

(** The groups of a GROUP BY partition the rows. *)
Lemma sum_group_sizes l :
  fold_right Nat.add 0%nat (map (group_size eqb key l) (distinct eqb (map key l))) = List.length l.
Proof.
  induction l as [|x l IH]; [reflexivity|].
  assert (Hsplit : forall k, group_size eqb key (x :: l) k
                             = ((if eqb (key x) k then 1 else 0) + group_size eqb key l k)%nat).
  { intros k. unfold group_size. simpl. now destruct (eqb (key x) k). }
  cbn [map distinct].
  destruct (existsb (eqb (key x)) (map key l)) eqn:E.
  - rewrite (map_ext _ _ Hsplit), sum_map_add, IH.
    rewrite sum_indicator_once; [simpl; lia|apply (NoDup_distinct _ eqb_spec)|].
    rewrite (In_distinct _ eqb_spec). apply existsb_exists in E as [k [Hk Ek]].
    apply eqb_spec in Ek. now subst.
  - cbn [map fold_right]. rewrite (map_ext _ _ Hsplit), sum_map_add, IH.
    rewrite sum_indicator_absent.
    + rewrite Hsplit, group_size_zero by exact E.
      assert (eqb (key x) (key x) = true) by now apply eqb_spec.
      rewrite H. simpl. lia.
    + rewrite (In_distinct _ eqb_spec). intros Hin.
      assert (existsb (eqb (key x)) (map key l) = true).
      { apply existsb_exists. exists (key x). split; [exact Hin|]. now apply eqb_spec. }
      congruence.
Qed.
End GroupCount.

Lemma sum_Z_of_nat {B} (f : B -> nat) (l : list B) :
  fold_right Z.add 0 (map (fun k => Z.of_nat (f k)) l) = Z.of_nat (fold_right Nat.add 0%nat (map f l)).
Proof. induction l as [|x l IH]; simpl; [reflexivity|]. rewrite IH. lia. Qed.

(** The [message_count]s reported by [get_indexer_stats] add up to the
    number of rows the query selects: every selected row is counted in
    exactly one sender's group. *)
Theorem get_indexer_stats_total rs indexers from_ts stats :
  get_indexer_stats rs indexers from_ts = Ok stats ->
  fold_right Z.add 0 (map message_count stats)
  = Z.of_nat (List.length
      (filter (fun r => nonce_after from_ts r && allowed indexers (account_of r)) rs)).
Proof.
  intros H. unfold get_indexer_stats in H. cbv zeta in H.
  destruct (sql_parses (in_clause indexers)); cbn [negb] in H; [|discriminate].
  destruct (where_all _ rs) as [sel|e] eqn:Ew; cbn [bind] in H; [|discriminate].
  pose proof (where_all_ok_eq _ _ _ Ew) as Hsel.
  pose proof (where_all_active_castable _ _ _ _ Ew) as Hcast.
  assert (Hsel' : sel = filter (fun r => nonce_after from_ts r && allowed indexers (account_of r)) rs).
  { rewrite Hsel. apply filter_ext_in. intros r Hr. destruct (Hcast r Hr) as [v Hv].
    now rewrite (active_where_value _ _ _ _ Hv). }
  rewrite <- Hsel'.
  rewrite (proj2 (stats_of_keys _ _ _ H)), sum_Z_of_nat.
  f_equal. exact (sum_group_sizes opt_str_eqb opt_str_eqb_spec account_of sel).
Qed.

Lemma get_indexer_stats_total_witness :
  get_indexer_stats rows_scenario3 None 1707328516
  = Ok [{| graph_account := "0xaa50"; message_count := 2; subgraphs_count := 1 |};
        {| graph_account := "0xaa51"; message_count := 1; subgraphs_count := 1 |}] /\
  fold_right Z.add 0 (map message_count
    [{| graph_account := "0xaa50"; message_count := 2; subgraphs_count := 1 |};
     {| graph_account := "0xaa51"; message_count := 1; subgraphs_count := 1 |}])
  = Z.of_nat (List.length
      (filter (fun r => nonce_after 1707328516 r && allowed None (account_of r)) rows_scenario3)).
Proof.
  assert (H : get_indexer_stats rows_scenario3 None 1707328516
              = Ok [{| graph_account := "0xaa50"; message_count := 2; subgraphs_count := 1 |};
                    {| graph_account := "0xaa51"; message_count := 1; subgraphs_count := 1 |}])
    by (vm_compute; reflexivity).
  split; [exact H|]. exact (get_indexer_stats_total _ _ _ _ H).
Defined.

(* ================================================================== *)
(** * The per-account maps of [query_aggregate_stats] *)

Lemma hm_get_entry {V} a k (d : V) f m :
  hm_get a (hm_entry k d f m)
  = if String.eqb a k then Some (f (match hm_get k m with Some v => v | None => d end))
    else hm_get a m.
Proof.
  induction m as [|[k' v] m IH]; simpl; [now destruct (String.eqb a k)|].
  destruct (String.eqb k k') eqn:E1.
  - apply String.eqb_eq in E1. subst k'. simpl. now destruct (String.eqb a k).
  - simpl. rewrite IH.
    destruct (String.eqb a k') eqn:E2, (String.eqb a k) eqn:E3; try reflexivity.
    apply String.eqb_eq in E2, E3. subst. now rewrite String.eqb_refl in E1.
Qed.

Lemma hm_entry_keys {V} a k (d : V) f m :
  In a (map fst (hm_entry k d f m)) <-> a = k \/ In a (map fst m).
Proof.
  induction m as [|[k' v] m IH]; simpl; [split; intros [H|H]; auto|].
  destruct (String.eqb k k') eqn:E1; simpl.
  - apply String.eqb_eq in E1. subst k'.
    split; [intros [H|H]; auto|intros [H|[H|H]]; auto].
  - rewrite IH. split; [intros [H|[H|H]]; auto|intros [H|[H|H]]; auto].
Qed.

Lemma aggregate_loop_counts add l acc a :
  hm_get a (subgraphs_counts (fold_left (aggregate_step add) l acc))
  = match hm_get a (subgraphs_counts acc) with
    | Some v => Some (v ++ map subgraphs_count
                                (filter (fun s => String.eqb (graph_account s) a) l))
    | None =>
        match filter (fun s => String.eqb (graph_account s) a) l with
        | [] => None
        | fl => Some (map subgraphs_count fl)
        end
    end.
Proof.
  revert acc. induction l as [|s l IH]; intros acc; simpl.
  - destruct (hm_get a (subgraphs_counts acc)); [now rewrite app_nil_r|reflexivity].
  - rewrite IH. cbn [subgraphs_counts aggregate_step]. rewrite hm_get_entry.
    rewrite (String.eqb_sym (graph_account s) a).
    destruct (String.eqb a (graph_account s)) eqn:E.
    + apply String.eqb_eq in E. rewrite <- E.
      destruct (hm_get a (subgraphs_counts acc)); simpl; [now rewrite <- app_assoc|reflexivity].
    + reflexivity.
Qed.

Lemma aggregate_loop_keys add l acc a :
  In a (map fst (total_subgraphs_count (fold_left (aggregate_step add) l acc))) <->
  In a (map fst (total_subgraphs_count acc)) \/ In a (agg_accounts l).
Proof.
  revert acc. induction l as [|s l IH]; intros acc; simpl; [tauto|].
  rewrite IH. cbn [total_subgraphs_count aggregate_step]. rewrite hm_entry_keys.
  unfold agg_accounts. simpl.
  split; [intros [[H|H]|H]|intros [H|[H|H]]]; auto.
Qed.

(** In [query_aggregate_stats], the list of [subgraphs_count]s kept for an
    account holds those of all its aggregate rows, in order; the accounts of
    [total_subgraphs_count] are exactly those of the aggregates; so the
    divisor of every average is the account's number of aggregate rows, at
    least 1, and neither the [map_or(1, ..)] default nor the [else 0]
    branch is ever taken. *)
Theorem query_aggregate_stats_divisors add f64_ceil_div aggregates :
  let M := aggregate_loop add aggregates in
  (forall a, hm_get a (subgraphs_counts M)
     = match filter (fun s => String.eqb (graph_account s) a) aggregates with
       | [] => None
       | fl => Some (map subgraphs_count fl)
       end) /\
  (forall a, In a (map fst (total_subgraphs_count M)) <-> In a (agg_accounts aggregates)) /\
  (forall a, In a (agg_accounts aggregates) ->
     average_count M a = List.length (filter (fun s => String.eqb (graph_account s) a) aggregates) /\
     (0 < average_count M a)%nat) /\
  average_subgraphs_count f64_ceil_div M
  = map (fun '(key, total_count) => (key, f64_ceil_div total_count (average_count M key)))
        (total_subgraphs_count M).
Proof.
  cbv zeta. unfold aggregate_loop.
  set (acc0 := {| total_message_count := []; total_subgraphs_count := [];
                  subgraphs_counts := [] |}).
  assert (H1 : forall a, hm_get a (subgraphs_counts (fold_left (aggregate_step add) aggregates acc0))
     = match filter (fun s => String.eqb (graph_account s) a) aggregates with
       | [] => None
       | fl => Some (map subgraphs_count fl)
       end) by (intros a; rewrite aggregate_loop_counts; reflexivity).
  assert (H2 : forall a, In a (map fst (total_subgraphs_count
                                   (fold_left (aggregate_step add) aggregates acc0)))
                         <-> In a (agg_accounts aggregates)).
  { intros a. rewrite aggregate_loop_keys. simpl. tauto. }
  assert (H3 : forall a, In a (agg_accounts aggregates) ->
     average_count (fold_left (aggregate_step add) aggregates acc0) a
       = List.length (filter (fun s => String.eqb (graph_account s) a) aggregates) /\
     (0 < average_count (fold_left (aggregate_step add) aggregates acc0) a)%nat).
  { intros a Ha. unfold average_count. rewrite H1.
    assert (Hne : filter (fun s => String.eqb (graph_account s) a) aggregates <> []).
    { unfold agg_accounts in Ha. apply in_map_iff in Ha as [s [Es Hs]].
      intros E. assert (Hin : In s (filter (fun s => String.eqb (graph_account s) a) aggregates))
        by (apply filter_In; split; [exact Hs|now apply String.eqb_eq]).
      rewrite E in Hin. contradiction. }
    destruct (filter _ aggregates) as [|s fl]; [contradiction|].
    simpl. rewrite length_map. split; [reflexivity|lia]. }
  split; [exact H1|]. split; [exact H2|]. split; [exact H3|].
  unfold average_subgraphs_count. apply map_ext_in. intros [key total] Hin.
  assert (Hk : In key (agg_accounts aggregates)).
  { apply H2. apply in_map_iff. exists (key, total). auto. }
  destruct (H3 key Hk) as [_ Hpos].
  apply Nat.ltb_lt in Hpos. now rewrite Hpos.
Qed.
